(** * canvas-announcer: the Canvas-to-Discord watcher (discord-watcher.js)

    A shallow embedding of the watcher's pure core (text normaliser, item
    normaliser, newest-first sort, novelty filter, message formatter, state
    commit) and of its two delivery modes (poll cycle and replay), followed
    by the properties of the specification.

    JavaScript strings are sequences of UTF-16 code units, and [length],
    [slice] and the regular expressions of the source all count code units;
    a string is therefore a [list N].  Network collaborators (the Canvas
    HTTP API, the Discord channel, the clock, the optional state file) are
    the environment of the cycle and appear as explicit arguments. *)

From Stdlib Require Import ZArith NArith Lia String Ascii Bool.
From stdpp Require Import base tactics option list sorting.

Local Open Scope Z_scope.

(** ** JavaScript values used by the watcher *)

Module Js.

(** A string: its UTF-16 code units. *)
Definition str := list N.

(** An ASCII literal of the source. *)
Definition lit (s : string) : str :=
  List.map N_of_ascii (list_ascii_of_string s).

Definition eqb (a b : str) : bool := bool_decide (a = b).

(** [x.length] *)
Definition len (s : str) : Z := Z.of_nat (length s).

(** Truthiness of a value that is a string, [null] or [undefined]:
    only a non-empty string is truthy. *)
Definition truthy (v : option str) : bool :=
  match v with
  | Some (_ :: _) => true
  | _ => false
  end.

(** [a || b] on such values: [a] when truthy, else [b]. *)
Definition or_else (a b : option str) : option str :=
  if truthy a then a else b.

(** [a || d] where [d] is a string literal: always a string. *)
Definition or_lit (a : option str) (d : str) : str :=
  match a with
  | Some (c :: r) => c :: r
  | _ => d
  end.

(** A value that is printed as it is: a string, [null] (a JSON null) or
    [undefined] (a key that the record lacks). *)
Inductive value :=
  | Undefined
  | Null
  | Chars (s : str).

Global Instance value_eq_dec : EqDecision value.
Proof. solve_decision. Defined.

(** [a || b] where [b] is such a value. *)
Definition or_value (a : option str) (b : value) : value :=
  match a with
  | Some (c :: r) => Chars (c :: r)
  | _ => b
  end.

(** A value inside a template literal: [null] and [undefined] print as
    their names. *)
Definition template (v : value) : str :=
  match v with
  | Chars s => s
  | Null => lit "null"
  | Undefined => lit "undefined"
  end.

(** The relative index of [Array.prototype.slice] and
    [String.prototype.slice]: a negative index counts from the end, and
    the result is clamped to [0, len]. *)
Definition rel_index {A} (l : list A) (i : Z) : nat :=
  let n := Z.of_nat (length l) in
  Z.to_nat (if i <? 0 then Z.max (n + i) 0 else Z.min i n).

(** [l.slice(start, end)] *)
Definition slice {A} (start end_ : Z) (l : list A) : list A :=
  let k := rel_index l start in
  let f := rel_index l end_ in
  take (f - k)%nat (drop k l).

(** [l.slice(start)] *)
Definition slice_from {A} (start : Z) (l : list A) : list A :=
  drop (rel_index l start) l.

(** [l.sort(cmp)].  The comparator returns a number or NaN ([None]), and
    NaN is read as 0.  [Array.prototype.sort] is stable, so for a
    consistent comparator every engine returns the list computed here.  For
    an inconsistent one (here: a present timestamp that is not a date) the
    order is implementation-defined and an engine may return another
    permutation than this insertion from the right; what is proved of the
    order of a sorted list is therefore proved of lists whose comparator
    is consistent. *)
Definition not_after {A} (cmp : A → A → option Z) (x y : A) : bool :=
  match cmp x y with
  | Some v => v <=? 0
  | None => true
  end.

Fixpoint insert {A} (cmp : A → A → option Z) (x : A) (l : list A) : list A :=
  match l with
  | [] => [x]
  | y :: l' => if not_after cmp x y then x :: l else y :: insert cmp x l'
  end.

Definition sort {A} (cmp : A → A → option Z) (l : list A) : list A :=
  foldr (insert cmp) [] l.

(** [Array.from(new Set(l))]: a [Set] keeps its elements in insertion
    order and ignores the insertion of an element it already holds, so
    the first occurrence of every element survives, in order. *)
Definition set_add `{EqDecision A} (acc : list A) (x : A) : list A :=
  if bool_decide (x ∈ acc) then acc else acc ++ [x].

Definition set_of `{EqDecision A} (l : list A) : list A :=
  foldl set_add [] l.

(** [set.has(x)] for a set given by its elements *)
Definition has `{EqDecision A} (set : list A) (x : A) : bool :=
  bool_decide (x ∈ set).

End Js.

Abbreviation jsstr := Js.str.

(** ** The regular expressions and string methods of [htmlToText] *)

Module Text.

Local Open Scope N_scope.

(** Code units named by the source. *)
Definition LT : N := 60.      (* < *)
Definition GT : N := 62.      (* > *)
Definition SLASH : N := 47.   (* / *)
Definition AMP : N := 38.     (* & *)
Definition NL : N := 10.      (* \n *)
Definition SPACE : N := 32.
Definition QUOT : N := 34.    (* double quote *)
Definition APOS : N := 39.    (* ' *)
Definition BULLET : N := 8226.    (* U+2022 *)
Definition ELLIPSIS : N := 8230.  (* U+2026 *)

(** [\s] of a regular expression and the characters removed by [trim]:
    WhiteSpace and LineTerminator of ECMAScript. *)
Definition is_space (c : N) : bool :=
  ((9 <=? c) && (c <=? 13)) || (c =? 32) || (c =? 160) || (c =? 5760)
  || ((8192 <=? c) && (c <=? 8202)) || (c =? 8232) || (c =? 8233)
  || (c =? 8239) || (c =? 8287) || (c =? 12288) || (c =? 65279).

(** Canonicalisation of the [i] flag (no [u] flag): upper-casing, which
    identifies only the two cases of an ASCII letter with an ASCII
    character. *)
Definition upper (c : N) : N :=
  if (97 <=? c) && (c <=? 122) then c - 32 else c.

Fixpoint starts_with (p s : jsstr) : bool :=
  match p, s with
  | [], _ => true
  | a :: p', b :: s' => (a =? b) && starts_with p' s'
  | _ :: _, [] => false
  end.

Fixpoint starts_with_ci (p s : jsstr) : bool :=
  match p, s with
  | [], _ => true
  | a :: p', b :: s' => (upper a =? upper b) && starts_with_ci p' s'
  | _ :: _, [] => false
  end.

(** The number of leading code units that satisfy [p]: a greedy starred
    character class. *)
Fixpoint run (p : N → bool) (s : jsstr) : nat :=
  match s with
  | c :: s' => if p c then S (run p s') else O
  | [] => O
  end.

(** A compiled pattern: at a position, given the rest of the subject, the
    length of the match that starts there, if any. *)
Definition matcher := jsstr → option nat.

(** [/<br\s*\/?>/i] *)
Definition re_br : matcher := λ s,
  if starts_with_ci (Js.lit "<br") s then
    let t := drop 3 s in
    let w := run is_space t in
    match drop w t with
    | a :: b :: _ =>
        if (a =? SLASH) && (b =? GT) then Some (3 + w + 2)%nat
        else if a =? GT then Some (3 + w + 1)%nat
        else None
    | [a] => if a =? GT then Some (3 + w + 1)%nat else None
    | [] => None
    end
  else None.

(** A literal pattern with the [i] flag: [/<\/p>/i], [/<li>/i],
    [/<\/li>/i]. *)
Definition re_lit_ci (p : jsstr) : matcher := λ s,
  if starts_with_ci p s then Some (length p) else None.

(** [/<[^>]+>/]: the class also matches line terminators, and the greedy
    [+] stops at the first [>]. *)
Definition re_tag : matcher := λ s,
  match s with
  | c :: t =>
      if c =? LT then
        let n := run (λ x, negb (x =? GT)) t in
        match n, drop n t with
        | S _, _ :: _ => Some (1 + n + 1)%nat
        | _, _ => None
        end
      else None
  | [] => None
  end.

(** The table [ents] of the source: the six entity codes and the
    character each stands for (space, ampersand, less-than, greater-than,
    double quote, apostrophe). *)
Definition ents : list (jsstr * jsstr) :=
  [ (Js.lit "&nbsp;", [SPACE]); (Js.lit "&amp;", [AMP]);
    (Js.lit "&lt;", [LT]); (Js.lit "&gt;", [GT]);
    (Js.lit "&quot;", [QUOT]); (Js.lit "&#39;", [APOS]) ].

(** An alternation of literals: the first alternative that matches. *)
Fixpoint re_alt (ps : list jsstr) : matcher := λ s,
  match ps with
  | [] => None
  | p :: ps' => if starts_with p s then Some (length p) else re_alt ps' s
  end.

(** [/&nbsp;|&amp;|&lt;|&gt;|&quot;|&#39;/] *)
Definition re_ent : matcher := re_alt (List.map fst ents).

(** [m => ents[m] || m] *)
Definition ent_value (m : jsstr) : jsstr :=
  match List.find (λ e, Js.eqb (fst e) m) ents with
  | Some (_, v :: r) => v :: r
  | _ => m
  end.

(** [/\n{3,}/] *)
Definition re_nl3 : matcher := λ s,
  let n := run (λ x, x =? NL) s in
  if (3 <=? n)%nat then Some n else None.

(** [s.replace(re, f)] for a global pattern whose matches are never empty:
    the subject is scanned from the left; at a position where the pattern
    matches, the replacement of the matched text is emitted and the scan
    resumes after the match; elsewhere the code unit is copied.  [skip]
    counts the code units of the current match still to be passed. *)
Fixpoint replace_from (re : matcher) (f : jsstr → jsstr) (skip : nat)
    (s : jsstr) : jsstr :=
  match s with
  | [] => []
  | c :: s' =>
      match skip with
      | S k => replace_from re f k s'
      | O =>
          match re s with
          | Some (S n) => f (take (S n) s) ++ replace_from re f n s'
          | _ => c :: replace_from re f O s'
          end
      end
  end.

Definition replace_all (re : matcher) (f : jsstr → jsstr) (s : jsstr)
    : jsstr :=
  replace_from re f O s.

(** [s.replace(pat, rep)] for a string pattern: the first occurrence. *)
Fixpoint replace_first (pat rep : jsstr) (s : jsstr) : jsstr :=
  if starts_with pat s then rep ++ drop (length pat) s
  else match s with
       | [] => []
       | c :: s' => c :: replace_first pat rep s'
       end.

(** [s.trim()] *)
Definition trim_start (s : jsstr) : jsstr := drop (run is_space s) s.
Definition trim (s : jsstr) : jsstr :=
  reverse (trim_start (reverse (trim_start s))).

(** [s.split('\n')] *)
Fixpoint split_nl (s : jsstr) : list jsstr :=
  match s with
  | [] => [[]]
  | c :: s' =>
      if c =? NL then [] :: split_nl s'
      else match split_nl s' with
           | l :: ls => (c :: l) :: ls
           | [] => [[c]]
           end
  end.

(** [ls.join('\n')] *)
Fixpoint join_nl (ls : list jsstr) : jsstr :=
  match ls with
  | [] => []
  | [l] => l
  | l :: ls' => l ++ NL :: join_nl ls'
  end.

(** *** htmlToText (discord-watcher.js, lines 92-103) *)
Definition strip_markup (html : jsstr) : jsstr :=
  replace_all re_tag (λ _, [])
    (replace_all (re_lit_ci (Js.lit "</li>")) (λ _, [NL])
      (replace_all (re_lit_ci (Js.lit "<li>")) (λ _, [BULLET; SPACE])
        (replace_all (re_lit_ci (Js.lit "</p>")) (λ _, [NL])
          (replace_all re_br (λ _, [NL]) html)))).

Definition decode_entities (t : jsstr) : jsstr :=
  replace_all re_ent ent_value t.

Definition tidy (t : jsstr) : jsstr :=
  trim (replace_all re_nl3 (λ _, [NL; NL])
          (join_nl (List.map trim (split_nl t)))).

Definition htmlToText (html : jsstr) : jsstr :=
  match html with
  | [] => []
  | _ => tidy (decode_entities (strip_markup html))
  end.

End Text.

(** ** The state of the watcher *)

(** Announcement ids are the integers of the Canvas API. *)
Definition ann_id := Z.

(** [state = { lastISO, seenIds }].  [seenIds] may be absent from a state
    document read from disk, which the code reads as [state.seenIds || []]. *)
Record State := mkState {
  lastISO : option jsstr;
  seenIds : option (list ann_id)
}.

Global Instance State_eq_dec : EqDecision State.
Proof. solve_decision. Defined.

Global Instance State_inhabited : Inhabited State :=
  populate (mkState None None).

(** [state.seenIds || []] (an array is truthy, even when empty) *)
Definition seen_or_empty (st : State) : list ann_id :=
  default [] (seenIds st).

(** ** Announcements *)

(** A record of the Canvas announcements API, with the fields the watcher
    reads; [None] is an absent (or null) field.  The field [url] is the one
    that is printed as it is, so it tells the two apart. *)
Record RawAnn := mkRaw {
  raw_id : ann_id;
  posted_at : option jsstr;
  created_at : option jsstr;
  raw_title : option jsstr;
  author_display_name : option jsstr;
  user_name : option jsstr;
  html_url : option jsstr;
  raw_url : Js.value;
  raw_message : option jsstr
}.

(** The canonical item built by [normalize]. *)
Record Item := mkItem {
  id : ann_id;
  ts : option jsstr;
  title : jsstr;
  author : jsstr;
  url : Js.value;
  message : jsstr
}.

Global Instance Item_eq_dec : EqDecision Item.
Proof. solve_decision. Defined.

(** *** normalize (discord-watcher.js, lines 105-115) *)
Definition normalize (ann : RawAnn) : Item :=
  {| id := raw_id ann;
     ts := Js.or_else (Js.or_else (posted_at ann) (created_at ann)) None;
     title := Js.or_lit (raw_title ann) (Js.lit "(no title)");
     author := Js.or_lit (Js.or_else (author_display_name ann) (user_name ann))
                 (Js.lit "Unknown");
     url := Js.or_value (html_url ann) (raw_url ann);
     message := Text.htmlToText (Js.or_lit (raw_message ann) []) |}.

(** ** Effects: exceptions, the process state and the channel *)

Inductive error :=
  | CanvasError     (* a page of the announcements request was not ok *)
  | DiscordError    (* the channel could not be fetched, or a send failed *)
  | RangeError      (* toISOString of an Invalid Date *)
  | FileError.      (* the state file could not be written *)

Inductive result (A : Type) :=
  | Ok (a : A)
  | Throw (e : error).
Arguments Ok {A} a.
Arguments Throw {A} e.

(** What a cycle can change: the in-memory [state], the document last
    written to the state file, and the payloads the channel has accepted,
    oldest first. *)
Record World := mkWorld {
  state : State;
  disk : option State;
  sent : list jsstr
}.

(** The collaborators of one cycle. *)
Record Env := mkEnv {
  (** [Date.now()] *)
  now : Z;
  (** [getAll] of the announcements request with the given [start_date]
      and [per_page]: all pages concatenated, or the error of the first
      page that is not ok. *)
  getAll : option jsstr → Z → result (list RawAnn);
  (** whether [client.channels.fetch(DISCORD_CHANNEL_ID)] resolves *)
  channel_resolves : bool;
  (** whether [channel.send(payload)] succeeds, given what was sent before *)
  accepts : list jsstr → jsstr → bool;
  (** whether [STATE_PATH] is set, and whether the file can be written *)
  state_path : bool;
  disk_writable : bool
}.

(** State and exception monad of the asynchronous functions: an exception
    keeps the effects that happened before it. *)
Definition M (A : Type) : Type := World → result A * World.

Definition ret {A} (a : A) : M A := λ w, (Ok a, w).
Definition throw {A} (e : error) : M A := λ w, (Throw e, w).
Definition bind {A B} (m : M A) (k : A → M B) : M B := λ w,
  match m w with
  | (Ok a, w') => k a w'
  | (Throw e, w') => (Throw e, w')
  end.
Definition lift {A} (r : result A) : M A := λ w, (r, w).
Definition get_state : M State := λ w, (Ok (state w), w).

Notation "'let*' x ':=' m 'in' k" := (bind m (λ x, k))
  (at level 10, x name, m at level 100, k at level 200).

Section Watcher.

(** [Date.parse] of the JavaScript runtime on a non-empty string: the time
    value in milliseconds since the epoch, or [None] for an Invalid Date
    (NaN). *)
Variable date_parse : jsstr → option Z.

(** [Date.prototype.toISOString] on a valid time value. *)
Variable toISOString : Z → jsstr.

(** [new Date(s)] for a string [s]; the empty string is an Invalid Date. *)
Definition new_Date (s : jsstr) : option Z :=
  match s with
  | [] => None
  | _ => date_parse s
  end.

(** [new Date(v)] for a value that is a string or [null]; [null] converts
    to the time value 0. *)
Definition new_Date_val (v : option jsstr) : option Z :=
  match v with
  | Some s => new_Date s
  | None => Some 0
  end.

(** [new Date(a) > new Date(b)]: both operands are converted to their time
    values, and a comparison with NaN is false. *)
Definition date_gt (a b : option jsstr) : bool :=
  match new_Date_val a, new_Date_val b with
  | Some x, Some y => bool_decide (y < x)
  | _, _ => false
  end.

(** *** updateState (discord-watcher.js, lines 56-61)
<<
    if (newISO && (!state.lastISO || new Date(newISO) > new Date(state.lastISO)))
      state.lastISO = newISO;
    const set = new Set([...(state.seenIds || []), ...newIds]);
    state.seenIds = Array.from(set).slice(-500);
>>
    The write to the optional state file follows in [writeState] below. *)
Definition advance (st : State) (newISO : option jsstr) : option jsstr :=
  if Js.truthy newISO
     && (negb (Js.truthy (lastISO st)) || date_gt newISO (lastISO st))
  then newISO
  else lastISO st.

Definition updateState (st : State) (newISO : option jsstr)
    (newIds : list ann_id) : State :=
  {| lastISO := advance st newISO;
     seenIds := Some (Js.slice_from (-500)
                        (Js.set_of (seen_or_empty st ++ newIds))) |}.

(** [writeState]: with a state file configured the state is written to
    it, and a failure of the write is swallowed. *)
Definition writeState (env : Env) : M () := λ w,
  if state_path env && disk_writable env
  then (Ok (), {| state := state w; disk := Some (state w); sent := sent w |})
  else (Ok (), w).

Definition commit (env : Env) (newISO : option jsstr)
    (newIds : list ann_id) : M () :=
  let* _ := (λ w, (Ok (), {| state := updateState (state w) newISO newIds;
                              disk := disk w; sent := sent w |})) in
  writeState env.

(** *** fetchSince (discord-watcher.js, lines 121-130) *)

(** [new Date(a.ts || 0)]: a missing timestamp is the time value 0. *)
Definition sort_key (a : Item) : option Z :=
  if Js.truthy (ts a) then new_Date_val (ts a) else Some 0.

(** [(a, b) => new Date(b.ts || 0) - new Date(a.ts || 0)] *)
Definition newest_first (a b : Item) : option Z :=
  match sort_key b, sort_key a with
  | Some kb, Some ka => Some (kb - ka)
  | _, _ => None
  end.

Definition sort_items (l : list Item) : list Item :=
  Js.sort newest_first l.

Definition fetchSince (env : Env) (iso : option jsstr) (perPage : Z)
    : M (list Item) :=
  let* raw := lift (getAll env (if Js.truthy iso then iso else None) perPage) in
  ret (sort_items (List.map normalize raw)).

(** *** buildDiscordMessage (discord-watcher.js, lines 135-143) *)
Definition MAX : Z := 2000.

Definition when_ (a : Item) : result jsstr :=
  if Js.truthy (ts a) then
    match new_Date_val (ts a) with
    | Some t =>
        Ok (Text.replace_first (Js.lit "Z") (Js.lit " UTC")
              (Text.replace_first (Js.lit "T") (Js.lit " ") (toISOString t)))
    | None => Throw RangeError
    end
  else Ok (Js.lit "unknown time").

Definition header_of (a : Item) (when : jsstr) : jsstr :=
  Js.lit "**" ++ title a ++ Js.lit "**" ++ [Text.NL] ++ Js.lit "Posted: "
  ++ when ++ Js.lit " by " ++ author a ++ [Text.NL; Text.NL].

Definition linkLine_of (a : Item) : jsstr :=
  [Text.NL; Text.NL; Text.LT] ++ Js.template (url a) ++ [Text.GT].

Definition maxBody_of (header linkLine : jsstr) : Z :=
  Z.max 0 (MAX - Js.len header - Js.len linkLine).

Definition body_of (a : Item) (maxBody : Z) : jsstr :=
  if Js.len (message a) >? maxBody
  then Js.slice 0 (maxBody - 1) (message a) ++ [Text.ELLIPSIS]
  else message a.

Definition buildDiscordMessage (a : Item) : result jsstr :=
  match when_ a with
  | Ok when =>
      let header := header_of a when in
      let linkLine := linkLine_of a in
      let maxBody := maxBody_of header linkLine in
      Ok (header ++ body_of a maxBody ++ linkLine)
  | Throw e => Throw e
  end.

(** *** postToDiscord (discord-watcher.js, lines 145-151) *)
Definition fetch_channel (env : Env) : M () :=
  if channel_resolves env then ret () else throw DiscordError.

Definition send (env : Env) (payload : jsstr) : M () := λ w,
  if accepts env (sent w) payload
  then (Ok (), {| state := state w; disk := disk w;
                  sent := sent w ++ [payload] |})
  else (Throw DiscordError, w).

Fixpoint send_each (env : Env) (items : list Item) : M () :=
  match items with
  | [] => ret ()
  | a :: rest =>
      let* payload := lift (buildDiscordMessage a) in
      let* _ := send env payload in
      send_each env rest
  end.

Definition postToDiscord (env : Env) (items : list Item) : M () :=
  match items with
  | [] => ret ()
  | _ => let* _ := fetch_channel env in send_each env (reverse items)
  end.

(** *** replayLatest (discord-watcher.js, lines 154-161) *)
Definition replayLatest (env : Env) (n : Z) : M () :=
  let* list_ := fetchSince env None (Z.max n 50) in
  postToDiscord env (Js.slice 0 n list_).

(** *** pollOnce (discord-watcher.js, lines 163-183) *)

(** The predicate of [list.filter] in [pollOnce], with the [state.lastISO]
    it reads and the set [seen] built at the start of the cycle. *)
Definition is_new (last : option jsstr) (seen : list ann_id) (a : Item)
    : bool :=
  (negb (Js.truthy last) || (Js.truthy (ts a) && date_gt (ts a) last))
  || negb (Js.has seen (id a)).

Definition week_ms : Z := 7 * 24 * 3600 * 1000.

Definition pollOnce (env : Env) : M () :=
  let* st := get_state in
  let since := Js.or_lit (lastISO st) (toISOString (now env - week_ms)) in
  let seen := Js.set_of (seen_or_empty st) in
  let* list_ := fetchSince env (Some since) 50 in
  let* st := get_state in
  let newer := List.filter (is_new (lastISO st) seen) list_ in
  match newer with
  | [] => ret ()
  | _ =>
      let* _ := postToDiscord env newer in
      let* st := get_state in
      let newestTs := Js.or_else (from_option ts None (head list_)) (lastISO st) in
      commit env newestTs (List.map id newer)
  end.

(** The Novelty Filter of the specification: the selection of [pollOnce]
    as an operation on the fetched list and the state. *)
Definition selectNew (st : State) (list_ : list Item) : list Item :=
  List.filter (is_new (lastISO st) (Js.set_of (seen_or_empty st))) list_.

End Watcher.

(** ** The variant that keeps its state in [state.json]

    The second source file of the repository is the same watcher with the
    state kept in a file instead of in memory: [readState] parses the file
    at every use and falls back to the empty state, [writeState] is not
    guarded, and [updateState] reads, updates and writes the file.  The
    text normaliser, [normalize], [fetchSince], [buildDiscordMessage], the
    posting loop (there [announceNewOnDiscord]) and the filter are the
    definitions above.  In a [World] of this variant [disk] is the file and
    [state] is not used. *)

Module OnDisk.

Section Variant.

Variable date_parse : jsstr → option Z.
Variable toISOString : Z → jsstr.

(** [readState]: the parsed file, or [{ lastISO: null, seenIds: [] }]. *)
Definition readState (w : World) : State :=
  default {| lastISO := None; seenIds := Some [] |} (disk w).

(** [writeState(s)] *)
Definition writeState (env : Env) (s : State) : M () := λ w,
  if disk_writable env
  then (Ok (), {| state := state w; disk := Some s; sent := sent w |})
  else (Throw FileError, w).

(** [updateState(newISO, newIds)] *)
Definition updateState (env : Env) (newISO : option jsstr)
    (newIds : list ann_id) : M () := λ w,
  writeState env (updateState date_parse (readState w) newISO newIds) w.

(** [pollOnce] *)
Definition pollOnce (env : Env) : M () := λ w,
  let st := readState w in
  let since := Js.or_lit (lastISO st) (toISOString (now env - week_ms)) in
  let seen := Js.set_of (seen_or_empty st) in
  (let* list_ := fetchSince date_parse env (Some since) 50 in
   let newer := List.filter (is_new date_parse (lastISO st) seen) list_ in
   match newer with
   | [] => ret ()
   | _ =>
       let* _ := postToDiscord date_parse toISOString env newer in
       let newestTs :=
         Js.or_else (from_option ts None (head list_)) (lastISO st) in
       updateState env newestTs (List.map id newer)
   end) w.

End Variant.

End OnDisk.

(** ** A concrete runtime date: the ECMAScript date-time string format

    [Iso.parse] reads the UTC form [YYYY-MM-DDTHH:mm:ssZ] (with optional
    milliseconds) that Canvas emits, and [Iso.format] prints a time value the
    way [toISOString] does.  The properties below are proved for every
    [date_parse] and [toISOString]; this instance serves the examples. *)

Module Iso.

Definition digit (c : N) : option Z :=
  if ((48 <=? c) && (c <=? 57))%N then Some (Z.of_N c - 48) else None.

Fixpoint num_from (acc : Z) (s : jsstr) : option Z :=
  match s with
  | [] => Some acc
  | c :: s' =>
      match digit c with
      | Some d => num_from (10 * acc + d) s'
      | None => None
      end
  end.

(** The number written by the [n] code units at offset [i]. *)
Definition field (i n : nat) (s : jsstr) : option Z :=
  let f := take n (drop i s) in
  if bool_decide (length f = n) then num_from 0 f else None.

Definition at_is (i : nat) (c : N) (s : jsstr) : bool :=
  bool_decide (s !! i = Some c).

Definition leap (y : Z) : bool :=
  ((y mod 4 =? 0) && negb (y mod 100 =? 0)) || (y mod 400 =? 0).

Definition days_in_month (y m : Z) : Z :=
  if m =? 2 then (if leap y then 29 else 28)
  else if (m =? 4) || (m =? 6) || (m =? 9) || (m =? 11) then 30
  else 31.

(** Days from 1970-01-01 to the given civil date. *)
Definition days_from_civil (y m d : Z) : Z :=
  let y' := if m <=? 2 then y - 1 else y in
  let era := y' / 400 in
  let yoe := y' - era * 400 in
  let mp := (m + 9) mod 12 in
  let doy := (153 * mp + 2) / 5 + d - 1 in
  let doe := yoe * 365 + yoe / 4 - yoe / 100 + doy in
  era * 146097 + doe - 719468.

Definition civil_from_days (z : Z) : Z * Z * Z :=
  let z := z + 719468 in
  let era := z / 146097 in
  let doe := z - era * 146097 in
  let yoe := (doe - doe / 1460 + doe / 36524 - doe / 146096) / 365 in
  let doy := doe - (365 * yoe + yoe / 4 - yoe / 100) in
  let mp := (5 * doy + 2) / 153 in
  let d := doy - (153 * mp + 2) / 5 + 1 in
  let m := if mp <? 10 then mp + 3 else mp - 9 in
  let y := yoe + era * 400 + (if m <=? 2 then 1 else 0) in
  (y, m, d).

Definition day_ms : Z := 86400000.

Definition parse (s : jsstr) : option Z :=
  match field 0 4 s, field 5 2 s, field 8 2 s,
        field 11 2 s, field 14 2 s, field 17 2 s with
  | Some y, Some mo, Some d, Some h, Some mi, Some sec =>
      let ms :=
        if bool_decide (drop 19 s = Js.lit "Z") then Some 0
        else if at_is 19 46 s && bool_decide (drop 23 s = Js.lit "Z")
             then field 20 3 s
             else None in
      match ms with
      | Some ms =>
          if at_is 4 45 s && at_is 7 45 s && at_is 10 84 s
             && at_is 13 58 s && at_is 16 58 s
             && (1 <=? mo) && (mo <=? 12)
             && (1 <=? d) && (d <=? days_in_month y mo)
             && (h <=? 23) && (mi <=? 59) && (sec <=? 59)
          then Some (days_from_civil y mo d * day_ms
                     + h * 3600000 + mi * 60000 + sec * 1000 + ms)
          else None
      | None => None
      end
  | _, _, _, _, _, _ => None
  end.

(** The last [n] decimal digits of [v], most significant first. *)
Fixpoint pad (n : nat) (v : Z) : jsstr :=
  match n with
  | O => []
  | S n' => pad n' (v / 10) ++ [Z.to_N (48 + v mod 10)]
  end.

Definition format (t : Z) : jsstr :=
  let days := t / day_ms in
  let r := t mod day_ms in
  let '(y, m, d) := civil_from_days days in
  let year :=
    if (0 <=? y) && (y <=? 9999) then pad 4 y
    else (if y <? 0 then Js.lit "-" else Js.lit "+") ++ pad 6 (Z.abs y) in
  year ++ Js.lit "-" ++ pad 2 m ++ Js.lit "-" ++ pad 2 d ++ Js.lit "T"
  ++ pad 2 (r / 3600000) ++ Js.lit ":" ++ pad 2 (r / 60000 mod 60)
  ++ Js.lit ":" ++ pad 2 (r / 1000 mod 60) ++ Js.lit "." ++ pad 3 (r mod 1000)
  ++ Js.lit "Z".

End Iso.

(** ** Vocabulary of the specification *)

Section Vocabulary.

Variable date_parse : jsstr → option Z.

(** The instant a stored timestamp denotes: none when the timestamp is
    absent, empty or not a date. *)
Definition instant (v : option jsstr) : option Z :=
  match v with
  | Some s => new_Date date_parse s
  | None => None
  end.

(** [new] is not earlier than [old]: when [old] denotes an instant, so
    does [new], and it is the same instant or a later one. *)
Definition not_earlier (new old : option jsstr) : Prop :=
  match instant old with
  | Some o => match instant new with
              | Some n => o ≤ n
              | None => False
              end
  | None => True
  end.

(** A run of commits, each with its new timestamp and delivered ids. *)
Definition commits (st : State) (cs : list (option jsstr * list ann_id))
    : State :=
  foldl (λ s c, updateState date_parse s c.1 c.2) st cs.

(** The selection rule of the Novelty Filter, in the words of the
    specification. *)
Definition no_watermark (st : State) : Prop :=
  Js.truthy (lastISO st) = false.

Definition later_than_watermark (st : State) (a : Item) : Prop :=
  ∃ x y, Js.truthy (ts a) = true ∧ instant (ts a) = Some x
         ∧ instant (lastISO st) = Some y ∧ y < x.

Definition selected_spec (st : State) (a : Item) : Prop :=
  (no_watermark st ∨ later_than_watermark st a)
  ∨ id a ∉ seen_or_empty st.

End Vocabulary.

Section CycleVocabulary.

Variable date_parse : jsstr → option Z.
Variable toISOString : Z → jsstr.

(** What [fetchSince] returns: it does not touch the world. *)
Definition fetch_items (env : Env) (iso : option jsstr) (perPage : Z)
    : result (list Item) :=
  (fetchSince date_parse env iso perPage (mkWorld inhabitant None [])).1.

(** The list a poll cycle fetches in state [st]. *)
Definition poll_fetch (env : Env) (st : State) : result (list Item) :=
  fetch_items env
    (Some (Js.or_lit (lastISO st) (toISOString (now env - week_ms)))) 50.

(** [ps] are the payloads of [items], one per item and in their order. *)
Definition formatted (items : list Item) (ps : list jsstr) : Prop :=
  Forall2 (λ a p, buildDiscordMessage date_parse toISOString a = Ok p)
          items ps.

(** The timer: one poll cycle after the other, each with the
    collaborators of its time; a failed cycle is logged and the next one
    runs ([pollOnce().catch(console.error)]). *)
Definition cycles (envs : list Env) (w : World) : World :=
  foldl (λ w env, (pollOnce date_parse toISOString env w).2) w envs.


End CycleVocabulary.

Section SortVocabulary.

Variable date_parse : jsstr → option Z.

(** An item with a missing timestamp, and one with a present timestamp. *)
Definition missing (a : Item) : Prop := Js.truthy (ts a) = false.
Definition present (a : Item) : Prop := Js.truthy (ts a) = true.

(** The present timestamp of the item is a date. *)
Definition dated (a : Item) : Prop :=
  present a → is_Some (instant date_parse (ts a)).

(** The timestamp of the item is a date later than the epoch. *)
Definition after_epoch (a : Item) : Prop :=
  ∃ x, instant date_parse (ts a) = Some x ∧ 0 < x.

(** The sort key as a number, for items whose key is not NaN. *)
Definition key_of (a : Item) : Z := default 0 (sort_key date_parse a).

(** Newest first: a later element never has a larger key. *)
Definition newest_first_order (a b : Item) : Prop := key_of b ≤ key_of a.

End SortVocabulary.

(** ** Scenarios *)

Module Scenario.

Definition plain (i : ann_id) (t : option jsstr) (body : jsstr) : Item :=
  {| id := i; ts := t; title := Js.lit "Quiz 3"; author := Js.lit "Ada";
     url := Js.Chars (Js.lit "https://canvas.test/a/1"); message := body |}.

(** An item whose title alone is as long as the whole budget. *)
Definition long_title (body : jsstr) : Item :=
  {| id := 1; ts := None; title := replicate 2000 97%N;
     author := Js.lit "Ada";
     url := Js.Chars (Js.lit "https://canvas.test/a/1");
     message := body |}.

(** An item with no timestamp, and one posted a second before the epoch. *)
Definition undated : Item := plain 1 None (Js.lit "first").
Definition before_epoch : Item :=
  plain 2 (Some (Js.lit "1969-12-31T23:59:59Z")) (Js.lit "second").

(** Five announcements as the source returns them, in no particular
    order; the third has no timestamp at all. *)
Definition raw (i : ann_id) (posted : option jsstr) (body : jsstr) : RawAnn :=
  {| raw_id := i; posted_at := posted; created_at := None;
     raw_title := Some (Js.lit "Week " ++ Iso.pad 1 i);
     author_display_name := None; user_name := Some (Js.lit "Ada");
     html_url := Some (Js.lit "https://canvas.test/a/" ++ Iso.pad 1 i);
     raw_url := Js.Undefined; raw_message := Some body |}.

Definition five : list RawAnn :=
  [ raw 1 (Some (Js.lit "2024-03-01T09:00:00Z")) (Js.lit "<p>one</p>");
    raw 4 (Some (Js.lit "2024-03-04T09:00:00Z")) (Js.lit "<p>four</p>");
    raw 3 None (Js.lit "<p>three</p>");
    raw 5 (Some (Js.lit "2024-03-05T09:00:00Z")) (Js.lit "<p>five</p>");
    raw 2 (Some (Js.lit "2024-03-02T09:00:00Z")) (Js.lit "<p>two</p>") ].


(** A source that returns the given announcements, and a channel that
    accepts the first [quota] payloads sent to it. *)
Definition env_of (anns : list RawAnn) (quota : nat) : Env :=
  {| now := 1709900000000;
     getAll := λ _ _, Ok anns;
     channel_resolves := true;
     accepts := λ log _, bool_decide (length log < quota)%nat;
     state_path := false;
     disk_writable := false |}.

(** A source and a channel that never fail. *)
Definition env_ok (anns : list RawAnn) : Env :=
  {| now := 1709900000000;
     getAll := λ _ _, Ok anns;
     channel_resolves := true;
     accepts := λ _ _, true;
     state_path := true;
     disk_writable := true |}.

Definition fresh : World :=
  {| state := {| lastISO := None; seenIds := Some [] |};
     disk := None; sent := [] |}.

(** Everything of [five] has been delivered already. *)
Definition caught_up : World :=
  {| state := {| lastISO := Some (Js.lit "2024-03-05T09:00:00Z");
                 seenIds := Some [1; 2; 3; 4; 5] |};
     disk := None; sent := [] |}.

(** The payloads of the items that format. *)
Definition payloads (items : list Item) : list jsstr :=
  omap (λ a, match buildDiscordMessage Iso.parse Iso.format a with
             | Ok p => Some p
             | Throw _ => None
             end) items.

Definition formats (items : list Item) : bool :=
  forallb (λ a, match buildDiscordMessage Iso.parse Iso.format a with
                | Ok _ => true
                | Throw _ => false
                end) items.

End Scenario.

(** Occurrences of a pattern: [occurs re s] when [re] matches at some
    position of [s]. *)
Fixpoint occurs (re : Text.matcher) (s : jsstr) : bool :=
  match re s with
  | Some _ => true
  | None => match s with
            | [] => false
            | _ :: s' => occurs re s'
            end
  end.



(** The text contains the code of the ampersand; of an angle bracket. *)
Definition has_amp_code (s : jsstr) : bool :=
  occurs (Text.re_alt [Js.lit "&amp;"]) s.

(** A code unit that is not an angle bracket. *)
Definition neutral (c : N) : Prop := c ≠ Text.LT ∧ c ≠ Text.GT.

(** [soften s s']: [s'] is [s] with some code units other than angle
    brackets deleted or replaced by one such code unit; the angle brackets
    stay, in their order. *)
Inductive soften : jsstr → jsstr → Prop :=
  | soften_nil : soften [] []
  | soften_keep c s s' : soften s s' → soften (c :: s) (c :: s')
  | soften_map c d s s' :
      neutral c → neutral d → soften s s' → soften (c :: s) (d :: s')
  | soften_drop c s s' : neutral c → soften s s' → soften (c :: s) s'.

(** The six entity codes. *)
Definition entity_codes : list jsstr := List.map fst Text.ents.

(** The texts that decode to an entity code: the code of the ampersand
    directly followed by the rest of a code. *)
Definition escaped_codes : list jsstr :=
  List.map (λ p, Js.lit "&amp;" ++ drop 1 p) entity_codes.

Definition has_escaped_code (s : jsstr) : bool :=
  occurs (Text.re_alt escaped_codes) s.

(** A code unit that is neither the ampersand nor one of the characters the
    entity codes stand for. *)
Definition plain (c : N) : bool :=
  negb (existsb (N.eqb c)
          [Text.AMP; Text.SPACE; Text.LT; Text.GT; Text.QUOT; Text.APOS]).

(** [chosen P l l']: [l'] consists of exactly the elements of [l] that
    satisfy [P], each as often as in [l] and in the order of [l]. *)
Inductive chosen {A} (P : A → Prop) : list A → list A → Prop :=
  | chosen_nil : chosen P [] []
  | chosen_keep x l l' : P x → chosen P l l' → chosen P (x :: l) (x :: l')
  | chosen_skip x l l' : ¬ P x → chosen P l l' → chosen P (x :: l) l'.

(** ** Pagination: parseNextLink and getAll (discord-watcher.js, lines 65-90) *)

Module Paging.

Definition COMMA : N := 44%N.

(** [s.split(c)] for a separator of one code unit. *)
Fixpoint split_on (c : N) (s : jsstr) : list jsstr :=
  match s with
  | [] => [[]]
  | x :: s' =>
      if (x =? c)%N then [] :: split_on c s'
      else match split_on c s' with
           | l :: ls => (x :: l) :: ls
           | [] => [[x]]
           end
  end.

(** [parts.join(c)], the inverse used to write headers down. *)
Fixpoint join_on (c : N) (parts : list jsstr) : jsstr :=
  match parts with
  | [] => []
  | [l] => l
  | l :: ls => l ++ c :: join_on c ls
  end.

(** [s.includes(pat)] *)
Definition includes (pat s : jsstr) : bool := occurs (Text.re_alt [pat]) s.

(** The text [rel="next"]. *)
Definition rel_next : jsstr :=
  Js.lit "rel=" ++ [Text.QUOT] ++ Js.lit "next" ++ [Text.QUOT].

(** [part.match(/<([^>]+)>/)]: the leftmost match, of which the code reads
    the group [m[1]], the text between the angle brackets. *)
Fixpoint match_link (s : jsstr) : option jsstr :=
  match Text.re_tag s with
  | Some n => Some (take (n - 2) (drop 1 s))
  | None => match s with
            | [] => None
            | _ :: s' => match_link s'
            end
  end.

(** The loop over the parts of the header. *)
Fixpoint first_next (parts : list jsstr) : option jsstr :=
  match parts with
  | [] => None
  | part :: rest =>
      if includes rel_next part then
        match match_link part with
        | Some u => Some u
        | None => first_next rest
        end
      else first_next rest
  end.

(** *** parseNextLink *)
Definition parseNextLink (linkHeader : option jsstr) : option jsstr :=
  match linkHeader with
  | Some (c :: h) =>
      first_next (List.map Text.trim (split_on COMMA (c :: h)))
  | _ => None
  end.

(** The response of the source to the request of one page. *)
Record Response := mkResponse {
  ok : bool;
  status : Z;
  statusText : jsstr;
  (** [res.text()], absent when reading the body fails *)
  text : option jsstr;
  (** [res.json()]: the records of the page, absent when it is not JSON *)
  json : option (list RawAnn);
  (** [res.headers.get('link')] *)
  link : option jsstr
}.

(** What [getAll] throws: its own error for a page that is not ok, with
    the parts of its message, or the rejection of [fetch] or of [json]. *)
Inductive fetch_error :=
  | HttpError (status : Z) (statusText body : jsstr)
  | NetworkError
  | JsonError.

(** *** getAll

    [server] answers the request of a url, or not at all.  The loop
    [while (next)] has no bound of its own: [fuel] bounds the number of
    pages requested, and [None] is a loop that has not finished within
    it. *)
Fixpoint getAll_from (server : jsstr → option Response) (fuel : nat)
    (out : list RawAnn) (next : option jsstr)
    : option (fetch_error + list RawAnn) :=
  match next with
  | Some (c :: u) =>
      match fuel with
      | O => None
      | S fuel' =>
          match server (c :: u) with
          | None => Some (inl NetworkError)
          | Some res =>
              if negb (ok res) then
                Some (inl (HttpError (status res) (statusText res)
                             (default [] (text res))))
              else match json res with
                   | None => Some (inl JsonError)
                   | Some page =>
                       getAll_from server fuel' (out ++ page)
                         (parseNextLink (link res))
                   end
          end
      end
  | _ => Some (inr out)
  end.

Definition getAll (server : jsstr → option Response) (fuel : nat)
    (url : jsstr) : option (fetch_error + list RawAnn) :=
  getAll_from server fuel [] (Some url).

(** [reaches server start pages next]: asked for [start], the source
    serves [pages] one after the other, each ok and linked to the following
    one, and the link left after the last of them is [next]. *)
Inductive reaches (server : jsstr → option Response)
    : option jsstr → list (list RawAnn) → option jsstr → Prop :=
  | reaches_here next : reaches server next [] next
  | reaches_page c u res page pages next :
      server (c :: u) = Some res →
      ok res = true →
      json res = Some page →
      reaches server (parseNextLink (link res)) pages next →
      reaches server (Some (c :: u)) (page :: pages) next.

(** A header entry [<url>; rel=r] with [r] in double quotes, as the source
    writes it. *)
Definition entry (url rel : jsstr) : jsstr :=
  [Text.LT] ++ url ++ [Text.GT] ++ Js.lit "; rel=" ++ [Text.QUOT] ++ rel
  ++ [Text.QUOT].

End Paging.

(** ** Start-up: configuration, initial state, first run and health
    endpoint (discord-watcher.js, lines 17-22, 41-50, 186-222) *)

Module Boot.

(** The environment variables the process cannot start without. *)
Definition required : list string :=
  [ "CANVAS_BASE"; "CANVAS_TOKEN"; "CANVAS_COURSE_ID"; "DISCORD_TOKEN";
    "DISCORD_CHANNEL_ID" ]%string.

(** [!process.env[k] || !String(process.env[k]).trim()] *)
Definition blank (penv : string → option jsstr) (k : string) : bool :=
  negb (Js.truthy (penv k))
  || negb (Js.truthy (Some (Text.trim (default [] (penv k))))).

(** The variable the start-up loop reports before [process.exit(1)], if
    any: the first one in the order of the list. *)
Definition missing_var (penv : string → option jsstr) : option string :=
  List.find (blank penv) required.

(** [let state = { lastISO: START_ISO || null, seenIds: [] }] *)
Definition seed (START_ISO : option jsstr) : State :=
  {| lastISO := Js.or_else START_ISO None; seenIds := Some [] |}.

(** [readState]: with [STATE_PATH] set, the parsed file replaces the
    state; a missing or malformed file ([None]) is ignored. *)
Definition readState (env : Env) (file : option State) (st : State) : State :=
  if state_path env then default st file else st.

(** The world the process starts in. *)
Definition initial (env : Env) (START_ISO : option jsstr)
    (file : option State) : World :=
  {| state := readState env file (seed START_ISO); disk := file; sent := [] |}.

(** The answers of the health server. *)
Inductive reply :=
  | Status (lastISO : option jsstr) (seenCount : nat)
  | Alive.

(** The request handler: [/status] reports [state.lastISO] and
    [state.seenIds.length], every other url gets the liveness text.
    Reading [length] of an absent [seenIds] throws: [None]. *)
Definition health (st : State) (url : jsstr) : option reply :=
  if Js.eqb url (Js.lit "/status") then
    match seenIds st with
    | Some ids => Some (Status (lastISO st) (length ids))
    | None => None
    end
  else Some Alive.

Section Ready.

Variable date_parse : jsstr → option Z.
Variable toISOString : Z → jsstr.

(** The [clientReady] handler up to the start of the timer: the process
    exits ([None]) when the channel cannot be fetched; otherwise the
    optional replay and the first poll run, the errors of both being
    logged and dropped.  The three steps meet the collaborators as they
    are at their time: [boot], [replay] and [poll]. *)
Definition ready (boot replay poll : Env) (replayCount : Z) (w : World)
    : option World :=
  if channel_resolves boot then
    let w1 := if 0 <? replayCount
              then (replayLatest date_parse toISOString replay replayCount w).2
              else w in
    Some (pollOnce date_parse toISOString poll w1).2
  else None.

End Ready.

End Boot.

(** ** A source that serves pages *)

Module Served.

Definition p1 : jsstr := Js.lit "https://canvas.test/announcements?page=1".
Definition p2 : jsstr := Js.lit "https://canvas.test/announcements?page=2".

(** The header of the page [this] with a following page [next]: the
    current page first, then the next one after a space. *)
Definition link_to (next this : jsstr) : jsstr :=
  Paging.join_on Paging.COMMA
    [ Paging.entry this (Js.lit "current");
      [Text.SPACE] ++ Paging.entry next (Js.lit "next") ].

Definition page (records : list RawAnn) (next : option jsstr)
    : Paging.Response :=
  {| Paging.ok := true; Paging.status := 200;
     Paging.statusText := Js.lit "OK"; Paging.text := None;
     Paging.json := Some records; Paging.link := next |}.

Definition refused : Paging.Response :=
  {| Paging.ok := false; Paging.status := 401;
     Paging.statusText := Js.lit "Unauthorized";
     Paging.text := Some (Js.lit "bad token"); Paging.json := None;
     Paging.link := None |}.

Definition first_page : Paging.Response :=
  page (take 3 Scenario.five) (Some (link_to p2 p1)).

Definition last_page : Paging.Response := page (drop 3 Scenario.five) None.

(** Two pages, the first linked to the second. *)
Definition two_pages (url : jsstr) : option Paging.Response :=
  if Js.eqb url p1 then Some first_page
  else if Js.eqb url p2 then Some last_page
  else None.

(** The same, with the second page refused. *)
Definition second_refused (url : jsstr) : option Paging.Response :=
  if Js.eqb url p1 then Some first_page
  else if Js.eqb url p2 then Some refused
  else None.

(** A source whose every page links to another one. *)
Definition endless (url : jsstr) : option Paging.Response :=
  Some (page [] (Some (Paging.entry p1 (Js.lit "next")))).

(** An environment with every required variable set, and one whose token
    is white space. *)
Definition penv_ok (k : string) : option jsstr :=
  if existsb (String.eqb k) Boot.required then Some (Js.lit "x") else None.

Definition penv_blank_token (k : string) : option jsstr :=
  if String.eqb k "CANVAS_TOKEN" then Some (Js.lit "  ") else penv_ok k.

(** The collaborators of [env] a minute later. *)
Definition later (env : Env) : Env :=
  {| now := now env + 60000; getAll := getAll env;
     channel_resolves := channel_resolves env; accepts := accepts env;
     state_path := state_path env; disk_writable := disk_writable env |}.

(** The collaborators of [env] with a state file that cannot be
    written. *)
Definition read_only (env : Env) : Env :=
  {| now := now env; getAll := getAll env;
     channel_resolves := channel_resolves env; accepts := accepts env;
     state_path := true; disk_writable := false |}.

End Served.

(** ** Vocabulary of the further properties *)

(** The present timestamp of the item is a date later than the epoch. *)
Definition dated_after_epoch (date_parse : jsstr → option Z) (a : Item)
    : Prop :=
  present a → after_epoch date_parse a.

(** A channel whose acceptance of a payload does not depend on what was
    sent before. *)
Definition history_blind (env : Env) : Prop :=
  ∀ log log' p, accepts env log p = accepts env log' p.

(** Two cycles that see the same source at the same time. *)
Definition same_source (env env' : Env) : Prop :=
  getAll env' = getAll env ∧ now env' = now env.

(** Two cycles that differ at most in the state file. *)
Definition same_but_file (env env' : Env) : Prop :=
  same_source env env'
  ∧ channel_resolves env' = channel_resolves env
  ∧ accepts env' = accepts env.

(** * Properties *)

(** ** Arrays: [slice] and [Set] *)

Section JsFacts.
Context {A : Type}.

Lemma rel_index_le (l : list A) (i : Z) : (Js.rel_index l i ≤ length l)%nat.
Proof. unfold Js.rel_index. cbv zeta. destruct (Z.ltb_spec i 0); lia. Qed.

Lemma rel_index_neg (l : list A) (k : nat) :
  (0 < k)%nat → Js.rel_index l (- Z.of_nat k) = (length l - k)%nat.
Proof.
  intros Hk. unfold Js.rel_index. cbv zeta.
  destruct (Z.ltb_spec (- Z.of_nat k) 0); lia.
Qed.

Lemma rel_index_nonneg (l : list A) (i : Z) :
  0 ≤ i → Js.rel_index l i = (Z.to_nat i `min` length l)%nat.
Proof.
  intros Hi. unfold Js.rel_index. cbv zeta.
  destruct (Z.ltb_spec i 0); lia.
Qed.

(** [l.slice(-k)] keeps the last [k] elements. *)
Lemma slice_from_neg (l : list A) (k : nat) :
  (0 < k)%nat → Js.slice_from (- Z.of_nat k) l = drop (length l - k) l.
Proof. intros Hk. unfold Js.slice_from. by rewrite rel_index_neg. Qed.

(** [l.slice(0, n)] for a count [n] keeps the first [n] elements. *)
Lemma slice_0_nonneg (l : list A) (n : Z) :
  0 ≤ n → Js.slice 0 n l = take (Z.to_nat n) l.
Proof.
  intros Hn. unfold Js.slice.
  rewrite !rel_index_nonneg by lia. simpl.
  rewrite Nat.sub_0_r.
  destruct (decide (Z.to_nat n ≤ length l)%nat).
  - by rewrite Nat.min_l.
  - rewrite Nat.min_r by lia.
    rewrite (take_ge l (Z.to_nat n)) by lia. apply firstn_all.
Qed.

(** [l.slice(0, -1)] drops the last element only. *)
Lemma slice_0_minus1 (l : list A) :
  Js.slice 0 (-1) l = take (length l - 1) l.
Proof.
  unfold Js.slice. change (-1) with (- Z.of_nat 1).
  rewrite (rel_index_neg l 1) by lia.
  rewrite rel_index_nonneg by lia. simpl. by rewrite Nat.sub_0_r.
Qed.

Context `{EqDecision A}.

Lemma elem_of_set_fold (acc l : list A) (x : A) :
  x ∈ foldl Js.set_add acc l ↔ x ∈ acc ∨ x ∈ l.
Proof.
  revert acc. induction l as [|y l IH]; intros acc; simpl.
  - rewrite elem_of_nil. tauto.
  - rewrite IH, elem_of_cons. unfold Js.set_add.
    case_bool_decide as Hy.
    + split; [tauto|]. intros [?|[->|?]]; tauto.
    + rewrite elem_of_app, list_elem_of_singleton. tauto.
Qed.

Lemma elem_of_set_of (l : list A) (x : A) : x ∈ Js.set_of l ↔ x ∈ l.
Proof.
  unfold Js.set_of. rewrite elem_of_set_fold, elem_of_nil. tauto.
Qed.

Lemma NoDup_set_fold (acc l : list A) :
  NoDup acc → NoDup (foldl Js.set_add acc l).
Proof.
  revert acc. induction l as [|y l IH]; intros acc Hacc; simpl; [done|].
  apply IH. unfold Js.set_add. case_bool_decide as Hy; [done|].
  apply NoDup_app. split_and!; [done| |apply NoDup_singleton].
  intros x Hx ->%list_elem_of_singleton. done.
Qed.

Lemma NoDup_set_of (l : list A) : NoDup (Js.set_of l).
Proof. apply NoDup_set_fold, NoDup_nil_2. Qed.

(** A set grows at the end: the elements already held keep their place. *)
Lemma set_fold_prefix (acc l : list A) :
  acc `prefix_of` foldl Js.set_add acc l.
Proof.
  revert acc. induction l as [|y l IH]; intros acc; simpl; [done|].
  etrans; [|apply IH]. unfold Js.set_add.
  case_bool_decide; [done|]. by apply prefix_app_r.
Qed.

Lemma set_has_spec (l : list A) (x : A) :
  Js.has (Js.set_of l) x = bool_decide (x ∈ l).
Proof. unfold Js.has. apply bool_decide_ext, elem_of_set_of. Qed.

End JsFacts.

(** ** The state commit *)

Section CommitFacts.

Variable date_parse : jsstr → option Z.

Local Abbreviation instant := (instant date_parse).
Local Abbreviation not_earlier := (not_earlier date_parse).
Local Abbreviation updateState := (updateState date_parse).
Local Abbreviation commits := (commits date_parse).

Lemma not_earlier_refl v : not_earlier v v.
Proof. unfold not_earlier. destruct (instant v); [lia|done]. Qed.

Lemma not_earlier_trans a b c :
  not_earlier b a → not_earlier c b → not_earlier c a.
Proof.
  unfold not_earlier.
  destruct (instant a), (instant b), (instant c); try done; lia.
Qed.

Lemma truthy_instant v x : instant v = Some x → Js.truthy v = true.
Proof. destruct v as [[|??]|]; simpl; done. Qed.

Lemma truthy_new_Date_val v :
  Js.truthy v = true → new_Date_val date_parse v = instant v.
Proof. destruct v as [[|??]|]; simpl; done. Qed.

(** One commit never moves the watermark back. *)
Lemma advance_not_earlier st newISO :
  not_earlier (advance date_parse st newISO) (lastISO st).
Proof.
  unfold not_earlier, advance.
  destruct (instant (lastISO st)) as [o|] eqn:Ho; [|done].
  pose proof (truthy_instant _ _ Ho) as Ht. rewrite Ht. simpl.
  destruct (Js.truthy newISO) eqn:Hn; simpl; [|rewrite Ho; lia].
  unfold date_gt. rewrite !truthy_new_Date_val, Ho by done.
  destruct (instant newISO) as [x|] eqn:Hx; [|rewrite Ho; lia].
  case_bool_decide; [rewrite Hx|rewrite Ho]; lia.
Qed.

Lemma commits_app st cs1 cs2 :
  commits st (cs1 ++ cs2) = commits (commits st cs1) cs2.
Proof. apply foldl_app. Qed.

Lemma commits_not_earlier st cs :
  not_earlier (lastISO (commits st cs)) (lastISO st).
Proof.
  revert st. induction cs as [|[iso ids] cs IH]; intros st; simpl.
  - apply not_earlier_refl.
  - eapply not_earlier_trans; [|apply IH]. apply advance_not_earlier.
Qed.

(** C3. Watermark monotonicity: along any run of commits, the
    [lastISO] held after a later commit is never earlier than the
    [lastISO] held at any point before it; in particular one call of
    [updateState], with any new timestamp and any ids, never moves a
    watermark that denotes an instant back, nor unsets it. *)
Theorem watermark_monotone (st : State)
    (cs1 cs2 : list (option jsstr * list ann_id)) :
  not_earlier (lastISO (commits st (cs1 ++ cs2)))
              (lastISO (commits st cs1)).
Proof. rewrite commits_app. apply commits_not_earlier. Qed.

Lemma seen_after_commit st newISO newIds :
  let all := Js.set_of (seen_or_empty st ++ newIds) in
  seenIds (updateState st newISO newIds)
  = Some (drop (length all - 500) all).
Proof.
  intros all. unfold updateState. cbn [seenIds]. fold all.
  change (-500) with (- Z.of_nat 500).
  by rewrite slice_from_neg by lia.
Qed.

Lemma seen_bounded_after_commit st newISO newIds :
  (length (seen_or_empty (updateState st newISO newIds)) ≤ 500)%nat.
Proof.
  unfold seen_or_empty at 1. rewrite seen_after_commit. simpl.
  rewrite length_drop. lia.
Qed.

(** C6. Bounded memory: after any run of commits followed by one more,
    from any starting state, [seenIds] holds at most 500 ids; the commit
    keeps the last 500 of the insertion-ordered set of the old and the
    new ids, so the ids it evicts are the oldest ones; and from a state
    within the cap, the cap holds after any number of commits. *)
Theorem seen_ids_bounded (st : State)
    (cs : list (option jsstr * list ann_id))
    (newISO : option jsstr) (newIds : list ann_id) :
  let st1 := commits st cs in
  let st2 := commits st (cs ++ [(newISO, newIds)]) in
  let all := Js.set_of (seen_or_empty st1 ++ newIds) in
  (length (seen_or_empty st2) ≤ 500)%nat
  ∧ seenIds st2 = Some (drop (length all - 500) all)
  ∧ take (length all - 500) all ++ seen_or_empty st2 = all
  ∧ ((length (seen_or_empty st) ≤ 500)%nat →
     (length (seen_or_empty st1) ≤ 500)%nat).
Proof.
  intros st1 st2 all.
  assert (Hst2 : st2 = updateState st1 newISO newIds).
  { unfold st2. by rewrite commits_app. }
  pose proof (seen_after_commit st1 newISO newIds) as Hseen.
  cbv zeta in Hseen. fold all in Hseen.
  assert (Hs : seen_or_empty st2 = drop (length all - 500) all).
  { unfold seen_or_empty. by rewrite Hst2, Hseen. }
  split_and!.
  - rewrite Hst2. apply seen_bounded_after_commit.
  - by rewrite Hst2.
  - rewrite Hs. apply take_drop.
  - unfold st1. destruct cs as [|c cs _] using rev_ind; [done|].
    intros _. rewrite commits_app. simpl. apply seen_bounded_after_commit.
Qed.

End CommitFacts.

(** ** The novelty filter *)

Section FilterFacts.

Variable date_parse : jsstr → option Z.

Local Abbreviation instant := (instant date_parse).

Lemma chosen_filter {A} (P : A → Prop) (f : A → bool) (l : list A) :
  (∀ x, f x = true ↔ P x) → chosen P l (List.filter f l).
Proof.
  intros Hf. induction l as [|x l IH]; simpl; [constructor|].
  destruct (f x) eqn:Hx.
  - apply chosen_keep; [by apply Hf|done].
  - apply chosen_skip; [|done]. rewrite <- Hf. congruence.
Qed.

Lemma chosen_sublist {A} (P : A → Prop) (l l' : list A) :
  chosen P l l' → l' `sublist_of` l.
Proof. induction 1; by constructor. Qed.

(** The predicate of the filter says what the rule says. *)
Lemma is_new_spec st a :
  is_new date_parse (lastISO st) (Js.set_of (seen_or_empty st)) a = true
  ↔ selected_spec date_parse st a.
Proof.
  unfold is_new, selected_spec, no_watermark, later_than_watermark.
  rewrite !orb_true_iff, andb_true_iff, negb_true_iff.
  rewrite set_has_spec, negb_true_iff, bool_decide_eq_false.
  destruct (Js.truthy (lastISO st)) eqn:Hw; simpl.
  - apply or_iff_compat_r. split; [intros [Hf|[Ht Hgt]]; [done|]|].
    + right. unfold date_gt in Hgt.
      rewrite !truthy_new_Date_val in Hgt by done.
      destruct (instant (ts a)) as [x|] eqn:Hx; [|done].
      destruct (instant (lastISO st)) as [y|] eqn:Hy; [|done].
      apply bool_decide_eq_true in Hgt. by exists x, y.
    + intros [Hf|(x & y & Ht & Hx & Hy & Hlt)]; [done|]. right.
      split; [done|]. unfold date_gt.
      rewrite !truthy_new_Date_val, Hx, Hy by done.
      by apply bool_decide_eq_true.
  - tauto.
Qed.

(** C2. The novelty filter selects exactly the items of the fetched list
    for which no watermark exists, or whose timestamp is present and
    strictly later than the watermark, or whose id is not among the
    recently seen ids; the selection keeps the order (and the
    multiplicity) of the fetched list, of which it is a subsequence. *)
Theorem selectNew_exact (st : State) (fetched : list Item) :
  chosen (selected_spec date_parse st) fetched
         (selectNew date_parse st fetched)
  ∧ selectNew date_parse st fetched `sublist_of` fetched
  ∧ ∀ a, a ∈ selectNew date_parse st fetched
         ↔ a ∈ fetched ∧ selected_spec date_parse st a.
Proof.
  assert (Hc : chosen (selected_spec date_parse st) fetched
                      (selectNew date_parse st fetched)).
  { apply chosen_filter. intros a. apply is_new_spec. }
  split_and!; [done|by eapply chosen_sublist|].
  intros a. unfold selectNew.
  rewrite !list_elem_of_In, filter_In, is_new_spec. done.
Qed.

End FilterFacts.

(** ** The newest-first sort *)

Section SortFacts.
Context {A : Type} (cmp : A → A → option Z).

Lemma insert_perm x l : Js.insert cmp x l ≡ₚ x :: l.
Proof.
  induction l as [|y l IH]; simpl; [done|].
  destruct (Js.not_after cmp x y); [done|].
  rewrite IH. apply Permutation_swap.
Qed.

Lemma sort_perm l : Js.sort cmp l ≡ₚ l.
Proof.
  induction l as [|x l IH]; simpl; [done|].
  rewrite insert_perm. by f_equiv.
Qed.

Lemma sort_nil_inv l : Js.sort cmp l = [] → l = [].
Proof.
  intros H. apply Permutation_nil_r. rewrite <- H. symmetry. apply sort_perm.
Qed.

Lemma sort_length l : length (Js.sort cmp l) = length l.
Proof. by rewrite sort_perm. Qed.

End SortFacts.

(** ** The delivery loop *)

Section CycleFacts.

Variable date_parse : jsstr → option Z.
Variable toISOString : Z → jsstr.

Local Abbreviation buildDiscordMessage :=
  (buildDiscordMessage date_parse toISOString).
Local Abbreviation send_each := (send_each date_parse toISOString).
Local Abbreviation postToDiscord := (postToDiscord date_parse toISOString).
Local Abbreviation fetchSince := (fetchSince date_parse).
Local Abbreviation fetch_items := (fetch_items date_parse).
Local Abbreviation poll_fetch := (poll_fetch date_parse toISOString).
Local Abbreviation pollOnce := (pollOnce date_parse toISOString).
Local Abbreviation replayLatest := (replayLatest date_parse toISOString).
Local Abbreviation formatted := (formatted date_parse toISOString).
Local Abbreviation selectNew := (selectNew date_parse).
Local Abbreviation cycles := (cycles date_parse toISOString).

(** The fetch reads the source and leaves the world alone. *)
Lemma fetchSince_eq env iso perPage w :
  fetchSince env iso perPage w = (fetch_items env iso perPage, w).
Proof.
  unfold fetch_items, fetchSince, bind, lift, ret.
  by destruct (getAll env _ perPage).
Qed.

(** Sending touches the channel only. *)
Lemma send_each_frame env items w :
  state (send_each env items w).2 = state w
  ∧ disk (send_each env items w).2 = disk w.
Proof.
  revert w. induction items as [|a items IH]; intros w; simpl; [done|].
  unfold bind, lift, send.
  destruct (buildDiscordMessage a) as [p|e]; [|done].
  destruct (accepts env (sent w) p); [|done].
  destruct (IH {| state := state w; disk := disk w;
                  sent := sent w ++ [p] |}) as [-> ->]. done.
Qed.

Lemma postToDiscord_frame env items w :
  state (postToDiscord env items w).2 = state w
  ∧ disk (postToDiscord env items w).2 = disk w.
Proof.
  unfold postToDiscord. destruct items as [|a items]; [done|].
  unfold bind, fetch_channel, throw, ret.
  destruct (channel_resolves env); [|done]. apply send_each_frame.
Qed.

(** With a channel that accepts every payload, a batch whose items all
    format is sent whole, in the order given. *)
Lemma send_each_ok env items ps w :
  (∀ log p, accepts env log p = true) →
  formatted items ps →
  send_each env items w
  = (Ok (), {| state := state w; disk := disk w; sent := sent w ++ ps |}).
Proof.
  intros Hacc Hps. revert w.
  induction Hps as [|a p items ps Hp _ IH]; intros w; simpl.
  - rewrite app_nil_r. by destruct w.
  - unfold bind, lift, send. rewrite Hp, Hacc, IH. simpl.
    by rewrite <- app_assoc.
Qed.

Lemma postToDiscord_ok env items ps w :
  channel_resolves env = true →
  (∀ log p, accepts env log p = true) →
  formatted (reverse items) ps →
  postToDiscord env items w
  = (Ok (), {| state := state w; disk := disk w; sent := sent w ++ ps |}).
Proof.
  intros Hch Hacc Hps. unfold postToDiscord.
  destruct items as [|a items].
  - inversion Hps; subst. rewrite app_nil_r. by destruct w.
  - unfold bind, fetch_channel, ret. rewrite Hch.
    by apply send_each_ok.
Qed.

(** A successful post has sent one payload per item, oldest first. *)
Lemma send_each_sent env items w w' :
  send_each env items w = (Ok (), w') →
  ∃ ps, formatted items ps ∧ sent w' = sent w ++ ps.
Proof.
  revert w. induction items as [|a items IH]; intros w; simpl.
  - intros [= <-]. exists []. split; [constructor|by rewrite app_nil_r].
  - unfold bind, lift, send.
    destruct (buildDiscordMessage a) as [p|e] eqn:Hp; [|done].
    destruct (accepts env (sent w) p); [|done].
    intros (ps & Hps & Hsent)%IH. simpl in Hsent.
    exists (p :: ps). split; [by constructor|].
    by rewrite Hsent, <- app_assoc.
Qed.

Lemma postToDiscord_sent env items w w' :
  postToDiscord env items w = (Ok (), w') →
  ∃ ps, formatted (reverse items) ps ∧ sent w' = sent w ++ ps.
Proof.
  unfold postToDiscord. destruct items as [|a items].
  - intros [= <-]. exists []. split; [constructor|by rewrite app_nil_r].
  - unfold bind, fetch_channel, throw, ret.
    destruct (channel_resolves env); [|done]. apply send_each_sent.
Qed.

(** The poll cycle, case by case. *)
Lemma pollOnce_eq env w :
  pollOnce env w =
  match poll_fetch env (state w) with
  | Throw e => (Throw e, w)
  | Ok fetched =>
      match selectNew (state w) fetched with
      | [] => (Ok (), w)
      | newer =>
          match postToDiscord env newer w with
          | (Throw e, w1) => (Throw e, w1)
          | (Ok _, w1) =>
              commit date_parse env
                (Js.or_else (from_option ts None (head fetched))
                            (lastISO (state w1)))
                (List.map id newer) w1
          end
      end
  end.
Proof.
  unfold pollOnce, poll_fetch. unfold bind at 1. unfold get_state at 1.
  unfold bind at 1. rewrite fetchSince_eq.
  destruct (fetch_items env _ 50) as [fetched|e]; [|done].
  unfold bind at 1. unfold get_state at 1. cbv zeta.
  fold (selectNew (state w) fetched).
  destruct (selectNew (state w) fetched) as [|a newer] eqn:Hsel; [done|].
  unfold bind at 1.
  destruct (postToDiscord env (a :: newer) w) as [[[]|e] w1]; done.
Qed.

Lemma commit_eq env newISO newIds w :
  commit date_parse env newISO newIds w
  = (Ok (), {| state := updateState date_parse (state w) newISO newIds;
               disk := if state_path env && disk_writable env
                       then Some (updateState date_parse (state w) newISO newIds)
                       else disk w;
               sent := sent w |}).
Proof.
  unfold commit, bind, writeState. simpl.
  by destruct (state_path env && disk_writable env).
Qed.

(** C1. The poll cycle commits only after every send of the batch has
    succeeded.  A cycle that fails (the fetch, the channel, the formatter
    or any send of the batch, also partway through it) leaves [state] and
    the state file as they were; a cycle whose filter selects nothing
    returns with the world unchanged; and a cycle that changed [state]
    has sent the payload of every selected item before. *)
Theorem poll_commits_after_all_sends (env : Env) (w : World) :
  (∀ e, (pollOnce env w).1 = Throw e →
        state (pollOnce env w).2 = state w
        ∧ disk (pollOnce env w).2 = disk w)
  ∧ (∀ fetched, poll_fetch env (state w) = Ok fetched →
        selectNew (state w) fetched = [] →
        pollOnce env w = (Ok (), w))
  ∧ (∀ fetched, poll_fetch env (state w) = Ok fetched →
        state (pollOnce env w).2 ≠ state w →
        (pollOnce env w).1 = Ok ()
        ∧ ∃ ps, formatted (reverse (selectNew (state w) fetched)) ps
                ∧ sent (pollOnce env w).2 = sent w ++ ps).
Proof.
  rewrite pollOnce_eq.
  destruct (poll_fetch env (state w)) as [fetched|e0] eqn:Hf.
  - destruct (selectNew (state w) fetched) as [|a newer] eqn:Hsel.
    + split_and!; [done|done|]. intros ? _ Hne. done.
    + pose proof (postToDiscord_frame env (a :: newer) w) as [Hst Hdk].
      cbv zeta.
      destruct (postToDiscord env (a :: newer) w) as [[[]|e1] w1] eqn:Hpost.
      * rewrite commit_eq. simpl.
        split_and!; [done|intros ? [= <-]; congruence|].
        intros ? [= <-] _. split; [done|]. rewrite Hsel.
        by apply postToDiscord_sent in Hpost.
      * simpl in *.
        split_and!; [done|intros ? [= <-]; congruence|]. intros ? _ Hne. done.
  - simpl. split_and!; [done|done|done].
Qed.








Lemma on_disk_pollOnce_eq env w :
  OnDisk.pollOnce date_parse toISOString env w =
  let st := OnDisk.readState w in
  match poll_fetch env st with
  | Throw e => (Throw e, w)
  | Ok fetched =>
      match selectNew st fetched with
      | [] => (Ok (), w)
      | newer =>
          match postToDiscord env newer w with
          | (Throw e, w1) => (Throw e, w1)
          | (Ok _, w1) =>
              OnDisk.updateState date_parse env
                (Js.or_else (from_option ts None (head fetched)) (lastISO st))
                (List.map id newer) w1
          end
      end
  end.
Proof.
  unfold OnDisk.pollOnce, poll_fetch. cbv zeta. unfold bind at 1.
  rewrite fetchSince_eq.
  destruct (fetch_items env _ 50) as [fetched|e]; [|done].
  fold (selectNew (OnDisk.readState w) fetched).
  destruct (selectNew (OnDisk.readState w) fetched) as [|a newer]; [done|].
  unfold bind.
  destruct (postToDiscord env (a :: newer) w) as [[[]|e] w1]; done.
Qed.

(** The variant with the state file commits the same way: a failed cycle
    leaves the file as it was, and a cycle that changed the file has sent
    the payload of every selected item and has written the state computed
    by the same [updateState]. *)
Lemma on_disk_poll_commits_after_all_sends env w :
  let out := OnDisk.pollOnce date_parse toISOString env w in
  (∀ e, out.1 = Throw e → disk out.2 = disk w)
  ∧ (disk out.2 ≠ disk w →
     ∃ fetched ps,
       poll_fetch env (OnDisk.readState w) = Ok fetched
       ∧ formatted (reverse (selectNew (OnDisk.readState w) fetched)) ps
       ∧ sent out.2 = sent w ++ ps
       ∧ disk out.2
         = Some (updateState date_parse (OnDisk.readState w)
                   (Js.or_else (from_option ts None (head fetched))
                               (lastISO (OnDisk.readState w)))
                   (List.map id (selectNew (OnDisk.readState w) fetched)))).
Proof.
  intros out. unfold out. rewrite on_disk_pollOnce_eq. cbv zeta.
  destruct (poll_fetch env (OnDisk.readState w)) as [fetched|e0] eqn:Hf;
    [|done].
  destruct (selectNew (OnDisk.readState w) fetched) as [|a newer] eqn:Hsel;
    [done|].
  pose proof (postToDiscord_frame env (a :: newer) w) as [Hst Hdk].
  destruct (postToDiscord env (a :: newer) w) as [[[]|e1] w1] eqn:Hpost;
    simpl in Hst, Hdk; [|done].
  unfold OnDisk.updateState, OnDisk.writeState.
  destruct (disk_writable env); simpl; [|done].
  split; [done|]. intros _.
  apply postToDiscord_sent in Hpost as (ps & Hps & Hsent).
  exists fetched, ps. rewrite Hsel. split_and!; [done|done|done|].
  unfold OnDisk.readState. by rewrite Hdk.
Qed.

End CycleFacts.

(** ** The message formatter *)

Section FormatFacts.

Variable date_parse : jsstr → option Z.
Variable toISOString : Z → jsstr.

Local Abbreviation buildDiscordMessage :=
  (buildDiscordMessage date_parse toISOString).
Local Abbreviation when_ := (when_ date_parse toISOString).

Lemma buildDiscordMessage_eq a when :
  when_ a = Ok when →
  buildDiscordMessage a
  = Ok (header_of a when
        ++ body_of a (maxBody_of (header_of a when) (linkLine_of a))
        ++ linkLine_of a).
Proof. unfold buildDiscordMessage. by intros ->. Qed.

(** The formatter returns unless the timestamp is present and not a date. *)
Lemma when_total a :
  dated date_parse a → ∃ when, when_ a = Ok when.
Proof.
  unfold dated, present, when_. intros Hd.
  destruct (Js.truthy (ts a)) eqn:Ht; [|by eexists].
  destruct (Hd eq_refl) as [x Hx].
  rewrite truthy_new_Date_val, Hx by done. by eexists.
Qed.

(** With a positive budget, a truncated body fills the budget exactly. *)
Lemma body_of_length a maxBody :
  0 < maxBody → Js.len (body_of a maxBody) ≤ maxBody.
Proof.
  intros Hpos. unfold body_of.
  destruct (Z.gtb_spec (Js.len (message a)) maxBody) as [Hgt|Hle];
    [|done].
  unfold Js.len in *. rewrite length_app, slice_0_nonneg by lia.
  rewrite length_take. simpl. lia.
Qed.

(** C4 (amended). For every item that formats, the payload is header,
    body and footer; whenever the body is truncated, the payload ends
    with the cut body, the ellipsis and then the footer; and when header
    and footer together are shorter than 2000 units, the payload is at
    most 2000 units long. *)
Theorem payload_within_limit (a : Item) (when : jsstr) :
  when_ a = Ok when →
  let header := header_of a when in
  let linkLine := linkLine_of a in
  let maxBody := maxBody_of header linkLine in
  ∃ payload,
    buildDiscordMessage a = Ok payload
    ∧ (Js.len (message a) > maxBody →
         payload = header ++ Js.slice 0 (maxBody - 1) (message a)
                   ++ [Text.ELLIPSIS] ++ linkLine)
    ∧ (Js.len header + Js.len linkLine < MAX → Js.len payload ≤ MAX).
Proof.
  intros Hw header linkLine maxBody.
  eexists. split; [by apply buildDiscordMessage_eq|]. fold header linkLine maxBody.
  split.
  - intros Hgt. unfold body_of.
    destruct (Z.gtb_spec (Js.len (message a)) maxBody) as [_|Hle]; [|lia].
    by rewrite <- app_assoc.
  - intros Hroom.
    assert (Hmb : maxBody = MAX - Js.len header - Js.len linkLine).
    { unfold maxBody, maxBody_of. lia. }
    pose proof (body_of_length a maxBody ltac:(lia)) as Hb.
    unfold Js.len in *. rewrite !length_app. lia.
Qed.

(** With no budget left, a non-empty body is not elided:
    [slice(0, maxBody - 1)] is [slice(0, -1)], which drops the last code
    unit only, and the ellipsis is appended. *)
Lemma body_of_zero_budget a :
  message a ≠ [] →
  body_of a 0
  = take (length (message a) - 1) (message a) ++ [Text.ELLIPSIS].
Proof.
  intros Hne. unfold body_of.
  destruct (Z.gtb_spec (Js.len (message a)) 0) as [_|Hle].
  - by rewrite <- slice_0_minus1.
  - unfold Js.len in Hle. destruct (message a); [done|simpl in Hle; lia].
Qed.

End FormatFacts.

(** C4, refuted as stated: an item whose title has 2000 code units and
    whose body is empty formats to a payload longer than 2000 units. *)
Lemma payload_can_exceed_limit :
  ∃ payload,
    buildDiscordMessage Iso.parse Iso.format (Scenario.long_title []) = Ok payload
    ∧ Js.len payload > MAX.
Proof. eexists. split; [vm_compute; reflexivity|]. vm_compute. reflexivity. Qed.

(** C5, the code at the failing input: header and footer use up the whole
    budget (the body budget is clamped to 0), and the body [hello] comes out
    as [hell] and the ellipsis between header and footer instead of being
    elided. *)
Lemma zero_budget_body_not_elided :
  let a := Scenario.long_title (Js.lit "hello") in
  let header := header_of a (Js.lit "unknown time") in
  let linkLine := linkLine_of a in
  maxBody_of header linkLine = 0
  ∧ buildDiscordMessage Iso.parse Iso.format a
    = Ok (header ++ Js.lit "hell" ++ [Text.ELLIPSIS] ++ linkLine)
  ∧ buildDiscordMessage Iso.parse Iso.format a ≠ Ok (header ++ linkLine).
Proof.
  intros a header linkLine.
  split_and!; [by vm_compute|by vm_compute|].
  intros H. vm_compute in H. apply (f_equal (λ r, match r with
    | Ok p => length p | Throw _ => O end)) in H. vm_compute in H. lia.
Qed.

(** ** The newest-first order of [fetchSince] *)

Section NewestFirstFacts.

Variable date_parse : jsstr → option Z.

Local Abbreviation sort_key := (sort_key date_parse).
Local Abbreviation newest_first := (newest_first date_parse).
Local Abbreviation sort_items := (sort_items date_parse).
Local Abbreviation key_of := (key_of date_parse).
Local Abbreviation dated := (dated date_parse).
Local Abbreviation after_epoch := (after_epoch date_parse).
Local Abbreviation R := (newest_first_order date_parse).

Lemma sort_key_dated a : dated a → sort_key a = Some (key_of a).
Proof.
  unfold dated, present, key_of, sort_key. intros Hd.
  destruct (Js.truthy (ts a)) eqn:Ht; [|done].
  destruct (Hd eq_refl) as [x Hx].
  by rewrite truthy_new_Date_val, Hx.
Qed.

Lemma key_of_missing a : missing a → key_of a = 0.
Proof. unfold missing, key_of, sort_key. by intros ->. Qed.

Lemma key_of_after_epoch a : after_epoch a → 0 < key_of a.
Proof.
  intros (x & Hx & Hpos). unfold key_of, sort_key.
  rewrite (truthy_instant _ _ _ Hx).
  rewrite truthy_new_Date_val, Hx by by eapply truthy_instant. done.
Qed.

(** On dated items the comparator is the comparison of the keys. *)
Lemma not_after_dated a b :
  dated a → dated b →
  Js.not_after newest_first a b = bool_decide (key_of b ≤ key_of a).
Proof.
  intros Ha Hb. unfold Js.not_after, newest_first.
  rewrite (sort_key_dated a), (sort_key_dated b) by done.
  destruct (Z.leb_spec (key_of b - key_of a) 0);
    symmetry; [apply bool_decide_eq_true|apply bool_decide_eq_false]; lia.
Qed.

Lemma insert_sorted a l :
  dated a → Forall dated l →
  StronglySorted R l → StronglySorted R (Js.insert newest_first a l).
Proof.
  intros Ha Hl Hs. induction Hs as [|b l Hs IH Hb]; simpl.
  - by repeat constructor.
  - apply Forall_cons_1 in Hl as [Hdb Hl].
    rewrite not_after_dated by done. case_bool_decide as Hab.
    + constructor; [by constructor|]. constructor; [done|].
      eapply Forall_impl; [exact Hb|].
      unfold newest_first_order in *. intros c Hc. lia.
    + constructor; [by apply IH|].
      rewrite insert_perm. constructor; [|done].
      unfold newest_first_order in *. lia.
Qed.

Lemma sort_items_sorted l :
  Forall dated l → StronglySorted R (sort_items l).
Proof.
  unfold sort_items. induction 1 as [|a l Ha Hl IH]; simpl.
  - constructor.
  - apply insert_sorted; [done| |done]. by rewrite sort_perm.
Qed.

Lemma sorted_lookup (l : list Item) i j a b :
  StronglySorted R l → (i < j)%nat →
  l !! i = Some a → l !! j = Some b → R a b.
Proof.
  intros Hs. revert i j. induction Hs as [|c l Hs IH Hc]; intros i j Hij.
  - done.
  - destruct i as [|i], j as [|j]; simpl; try lia.
    + intros [= <-] Hb. rewrite Forall_forall in Hc.
      apply Hc. by eapply list_elem_of_lookup_2.
    + apply IH. lia.
Qed.

(** C8 (amended). The sort rearranges the list, and on a list whose
    present timestamps are all dates it places every item with a missing
    timestamp after every item whose timestamp is later than the epoch:
    a missing timestamp sorts as the epoch itself. *)
Theorem missing_sorts_as_epoch (fetched : list Item) :
  Forall dated fetched →
  sort_items fetched ≡ₚ fetched
  ∧ ∀ i j a b,
      sort_items fetched !! i = Some a →
      sort_items fetched !! j = Some b →
      missing a → after_epoch b →
      (j < i)%nat.
Proof.
  intros Hd. split; [apply sort_perm|].
  intros i j a b Hi Hj Ha Hb.
  pose proof (key_of_missing a Ha) as Hka.
  pose proof (key_of_after_epoch b Hb) as Hkb.
  destruct (lt_eq_lt_dec i j) as [[Hlt| ->]|Hgt];
    [|rewrite Hi in Hj; injection Hj as <-; lia|done].
  pose proof (sorted_lookup _ _ _ _ _ (sort_items_sorted _ Hd) Hlt Hi Hj) as HR.
  unfold newest_first_order in HR. lia.
Qed.

End NewestFirstFacts.

(** C8, refuted as stated: an item with no timestamp, followed in the
    fetched list by an item posted one second before the epoch, stays in
    front of it after the sort. *)
Lemma missing_can_precede_present :
  let sorted := sort_items Iso.parse [Scenario.undated; Scenario.before_epoch] in
  sorted !! 0%nat = Some Scenario.undated
  ∧ sorted !! 1%nat = Some Scenario.before_epoch
  ∧ missing Scenario.undated
  ∧ present Scenario.before_epoch.
Proof. by vm_compute. Qed.

(** ** Global replacement *)

Section ReplaceFacts.

Variable re : Text.matcher.
Variable f : jsstr → jsstr.

Lemma replace_from_skip k s :
  Text.replace_from re f k s = Text.replace_all re f (drop k s).
Proof.
  revert s. induction k as [|k IH]; intros s; [done|].
  destruct s as [|c s]; [done|]. simpl. apply IH.
Qed.

Lemma replace_all_nil : Text.replace_all re f [] = [].
Proof. done. Qed.

Lemma replace_all_match c s n :
  re (c :: s) = Some (S n) →
  Text.replace_all re f (c :: s)
  = f (take (S n) (c :: s)) ++ Text.replace_all re f (drop n s).
Proof.
  intros H. unfold Text.replace_all at 1. simpl. rewrite H.
  by rewrite replace_from_skip.
Qed.

Lemma replace_all_copy c s :
  re (c :: s) = None ∨ re (c :: s) = Some O →
  Text.replace_all re f (c :: s) = c :: Text.replace_all re f s.
Proof.
  intros H. unfold Text.replace_all at 1. simpl.
  by destruct H as [-> | ->].
Qed.

(** Induction along the scan of [replace]: at every position either the
    code unit is copied or a match is replaced and passed over. *)
Lemma replace_all_ind (P : jsstr → jsstr → Prop) :
  P [] [] →
  (∀ c s, re (c :: s) = None ∨ re (c :: s) = Some O →
     P s (Text.replace_all re f s) →
     P (c :: s) (c :: Text.replace_all re f s)) →
  (∀ c s n, re (c :: s) = Some (S n) →
     P (drop n s) (Text.replace_all re f (drop n s)) →
     P (c :: s) (f (take (S n) (c :: s))
                 ++ Text.replace_all re f (drop n s))) →
  ∀ s, P s (Text.replace_all re f s).
Proof.
  intros Hnil Hcopy Hmatch s.
  remember (length s) as m eqn:Hm. revert s Hm.
  induction m as [m IH0] using lt_wf_ind. intros s ->.
  assert (IH : ∀ t, (length t < length s)%nat → P t (Text.replace_all re f t)).
  { intros t Ht. by eapply IH0. }
  clear IH0. destruct s as [|c s]; [done|].
  destruct (re (c :: s)) as [[|n]|] eqn:Hre.
  - rewrite replace_all_copy by auto. apply Hcopy; [auto|].
    apply IH. simpl. lia.
  - rewrite (replace_all_match _ _ n) by done. apply Hmatch; [done|].
    apply IH. simpl. rewrite length_drop. lia.
  - rewrite replace_all_copy by auto. apply Hcopy; [auto|].
    apply IH. simpl. lia.
Qed.

End ReplaceFacts.

(** ** Markup tags *)

Section TagFacts.

Import Text.

Lemma run_drop_nil p s :
  drop (run p s) s = [] ↔ Forall (λ x, p x = true) s.
Proof.
  induction s as [|c s IH]; simpl; [by split|].
  destruct (p c) eqn:Hc; simpl.
  - rewrite IH. split; [by constructor|]. by inversion 1.
  - split; [done|]. inversion 1; congruence.
Qed.

Lemma run_drop_cons p s x r :
  drop (run p s) s = x :: r → p x = false ∧ x ∈ s.
Proof.
  induction s as [|c s IH]; simpl; [done|].
  destruct (p c) eqn:Hc; simpl.
  - intros [? ?]%IH. split; [done|by right].
  - intros [= <- <-]. split; [done|by left].
Qed.

Lemma not_gt_all t :
  Forall (λ x, negb (x =? GT)%N = true) t ↔ GT ∉ t.
Proof.
  rewrite Forall_forall. split.
  - intros H Hin. specialize (H _ Hin). by rewrite N.eqb_refl in H.
  - intros H x Hx. destruct (N.eqb_spec x GT) as [->|]; done.
Qed.



Lemma occurs_cons re c s :
  occurs re (c :: s) = false ↔ re (c :: s) = None ∧ occurs re s = false.
Proof. simpl. destruct (re (c :: s)); split; try done; by intros [? ?]. Qed.




(** *** Softening keeps a text free of tags *)





Lemma soften_app x x' y y' :
  soften x x' → soften y y' → soften (x ++ y) (x' ++ y').
Proof. induction 1; intros Hy; simpl; [done|by constructor; auto..]. Qed.

Lemma soften_drop_all r : Forall neutral r → soften r [].
Proof. induction 1; by constructor. Qed.

(** Passing over [k] neutral code units. *)
Lemma soften_skip k s o :
  Forall neutral (take k s) → soften (drop k s) o → soften s o.
Proof.
  intros Hk Ho. rewrite <- (take_drop k s).
  change o with ([] ++ o). apply soften_app; [|done]. by apply soften_drop_all.
Qed.


End TagFacts.

(** ** Trimming, lines and blank lines *)

Section TidyFacts.

Import Text.

Lemma run_take_all p s : Forall (λ x, p x = true) (take (run p s) s).
Proof.
  induction s as [|c s IH]; simpl; [done|].
  destruct (p c) eqn:Hc; simpl; [by constructor|done].
Qed.

Lemma run_le p s : (run p s ≤ length s)%nat.
Proof.
  induction s as [|c s IH]; simpl; [done|]. destruct (p c); simpl; lia.
Qed.

(** [trim] removes a run of white space at either end and nothing else. *)
Lemma trim_spec s :
  ∃ l r, s = l ++ trim s ++ r
         ∧ Forall (λ x, is_space x = true) l
         ∧ Forall (λ x, is_space x = true) r.
Proof.
  unfold trim, trim_start.
  set (u := drop (run is_space s) s).
  exists (take (run is_space s) s),
         (reverse (take (run is_space (reverse u)) (reverse u))).
  split_and!.
  - rewrite <- reverse_app, take_drop, reverse_involutive.
    unfold u. by rewrite take_drop.
  - apply run_take_all.
  - apply Forall_reverse, run_take_all.
Qed.









Lemma re_nl3_Some s k :
  re_nl3 s = Some k → (3 ≤ k)%nat ∧ k = run (λ x, (x =? NL)%N) s.
Proof.
  unfold re_nl3. destruct (Nat.leb_spec 3 (run (λ x, (x =? NL)%N) s));
    [|done]. by intros [= <-].
Qed.





End TidyFacts.

(** ** Entity codes *)

Section EntityFacts.

Import Text.

Lemma starts_with_prefix p s : starts_with p s = true ↔ p `prefix_of` s.
Proof.
  revert s. induction p as [|a p IH]; intros s; simpl.
  - split; [intros _; apply prefix_nil|done].
  - destruct s as [|b s].
    + split; [done|]. by intros ?%prefix_nil_not.
    + rewrite andb_true_iff, N.eqb_eq, IH. split.
      * intros [-> ?]. by apply prefix_cons.
      * intros H. split; [by eapply prefix_cons_inv_1|by eapply prefix_cons_inv_2].
Qed.


Lemma re_alt_None ps s :
  re_alt ps s = None ↔ ∀ p, p ∈ ps → ¬ p `prefix_of` s.
Proof.
  induction ps as [|p ps IH]; simpl.
  - split; [|done]. intros _ p Hp. by apply elem_of_nil in Hp.
  - destruct (starts_with p s) eqn:Hp.
    + split; [done|]. intros H. destruct (H p); [by left|].
      by apply starts_with_prefix.
    + rewrite IH. split.
      * intros H q [->|Hq]%elem_of_cons; [|by apply H].
        rewrite <- starts_with_prefix. congruence.
      * intros H q Hq. apply H. by right.
Qed.

(** No alternative matches a text whose matching prefixes all match the
    original. *)
Lemma re_alt_transfer ps s out :
  re_alt ps s = None →
  (∀ p, p ∈ ps → p `prefix_of` out → p `prefix_of` s) →
  re_alt ps out = None.
Proof.
  rewrite !re_alt_None. intros Hs Hout p Hp Hpre. eapply Hs; eauto.
Qed.

Lemma occurs_app_r re x y : occurs re (x ++ y) = false → occurs re y = false.
Proof.
  induction x as [|c x IH]; [done|]. simpl app.
  intros [_ H]%occurs_cons. by apply IH.
Qed.

Lemma occurs_nil re : occurs re [] = false ↔ re [] = None.
Proof. simpl. by destruct (re []). Qed.

Lemma occurs_top re s : occurs re s = false → re s = None.
Proof. destruct s; [by intros ?%occurs_nil|by intros [? _]%occurs_cons]. Qed.

Lemma occurs_app_l ps x y :
  occurs (re_alt ps) (x ++ y) = false → occurs (re_alt ps) x = false.
Proof.
  assert (Htop : ∀ x, re_alt ps (x ++ y) = None → re_alt ps x = None).
  { intros x' H. eapply re_alt_transfer; [exact H|].
    intros p _ Hp. by apply prefix_app_r. }
  induction x as [|c x IH].
  - intros H%occurs_top. apply occurs_nil. by apply Htop.
  - simpl app. intros [Hre H]%occurs_cons. apply occurs_cons.
    split; [by apply (Htop (c :: x))|by apply IH].
Qed.

(** The shape of an entity code: the ampersand, then plain code units that
    are neither angle brackets nor line feeds; it stands for one code unit
    that is not plain. *)
Lemma entity_shape p :
  p ∈ entity_codes →
  ∃ body r, p = AMP :: body ∧ ent_value p = [r]
    ∧ Forall (λ x, plain x = true) body
    ∧ Forall neutral body
    ∧ (NL ∉ p)
    ∧ plain r = false ∧ r ≠ NL
    ∧ (p ≠ Js.lit "&amp;" → r ≠ AMP)
    ∧ (p ≠ Js.lit "&lt;" → p ≠ Js.lit "&gt;" → neutral r).
Proof.
  unfold entity_codes. simpl.
  intros Hp. repeat (apply elem_of_cons in Hp as [->|Hp]);
    [..|by apply elem_of_nil in Hp];
    eexists _, _; (split; [reflexivity|]); (split; [reflexivity|]);
    split_and!;
    try (by repeat (apply Forall_cons_2; [done|]));
    try (by repeat (apply Forall_cons_2; [by split|]));
    try (rewrite list_elem_of_In; vm_compute; intuition discriminate);
    try done; try (by split).
Qed.




(** *** Prefixes of a replaced text *)




Lemma re_ent_head h rest : h ≠ AMP → re_ent (h :: rest) = None.
Proof.
  intros Hh. apply re_alt_None. intros p Hp Hpre. fold entity_codes in Hp.
  destruct (entity_shape p Hp) as (body & r & -> & _).
  by pose proof (prefix_cons_inv_1 _ _ _ _ Hpre).
Qed.



(** A text without the code of the ampersand holds no escaped code. *)
Lemma escaped_code_has_amp t :
  has_amp_code t = false → has_escaped_code t = false.
Proof.
  unfold has_amp_code, has_escaped_code.
  assert (Htop : ∀ s, re_alt [Js.lit "&amp;"] s = None →
                      re_alt escaped_codes s = None).
  { intros s. rewrite !re_alt_None. intros H q Hq Hpre.
    apply list_elem_of_fmap in Hq as (p & -> & _).
    apply (H (Js.lit "&amp;")); [by left|].
    etrans; [|exact Hpre]. by apply prefix_app_r. }
  induction t as [|c t IH].
  - intros H%occurs_top. by apply occurs_nil, Htop.
  - intros [Hre H]%occurs_cons. apply occurs_cons.
    split; [by apply Htop|by apply IH].
Qed.


(** *** Tidying keeps a text free of entity codes *)








End EntityFacts.

(** ** The text normaliser *)



(** ** The properties at concrete inputs *)

(** The text normaliser on a paragraph, a list and a run of blank lines. *)
Example htmlToText_example :
  Text.htmlToText
    (Js.lit "<p>Hello&nbsp;<b>world</b></p><ul><LI>one</li><li>two &amp; three </li></ul><br  /><br><BR>x")
  = Js.lit "Hello world" ++ [Text.NL; Text.BULLET] ++ Js.lit " one"
    ++ [Text.NL; Text.BULLET] ++ Js.lit " two & three" ++ [Text.NL; Text.NL]
    ++ Js.lit "x".
Proof. vm_compute. reflexivity. Qed.

(** The formatter on a dated item. *)
Example buildDiscordMessage_example :
  buildDiscordMessage Iso.parse Iso.format
    (Scenario.plain 1 (Some (Js.lit "2024-03-01T12:30:45Z")) (Js.lit "hello"))
  = Ok (Js.lit "**Quiz 3**" ++ [Text.NL]
        ++ Js.lit "Posted: 2024-03-01 12:30:45.000 UTC by Ada"
        ++ [Text.NL; Text.NL] ++ Js.lit "hello" ++ [Text.NL; Text.NL]
        ++ Js.lit "<https://canvas.test/a/1>").
Proof. vm_compute. reflexivity. Qed.

(** The link line of an announcement whose urls are both null, and of one
    that has neither key. *)
Example linkLine_of_absent_url_example :
  let ann (u : Js.value) :=
    {| raw_id := 1; posted_at := None; created_at := None; raw_title := None;
       author_display_name := None; user_name := None; html_url := None;
       raw_url := u; raw_message := None |} in
  linkLine_of (normalize (ann Js.Null))
  = [Text.NL; Text.NL] ++ Js.lit "<null>"
  ∧ linkLine_of (normalize (ann Js.Undefined))
    = [Text.NL; Text.NL] ++ Js.lit "<undefined>".
Proof. vm_compute. split; reflexivity. Qed.

(** A first cycle over five announcements delivers all of them, oldest
    first (the undated one sorts as the epoch), and commits the newest
    timestamp and the five ids. *)
Example poll_fresh_example :
  let out := pollOnce Iso.parse Iso.format (Scenario.env_ok Scenario.five)
               Scenario.fresh in
  out.1 = Ok ()
  ∧ state out.2 = {| lastISO := Some (Js.lit "2024-03-05T09:00:00Z");
                     seenIds := Some [5; 4; 2; 1; 3] |}
  ∧ disk out.2 = Some (state out.2)
  ∧ sent out.2
    = Scenario.payloads
        (List.map normalize
           (List.map (λ i, default (Scenario.raw 0 None []) (Scenario.five !! i))
                     [2; 0; 4; 1; 3]%nat)).
Proof. vm_compute. repeat split. Qed.

(** At the boundary: with the watermark at the timestamp of a seen item,
    only the later item is selected. *)
Example selectNew_boundary_example :
  let t2 := Scenario.plain 2 (Some (Js.lit "2024-03-02T09:00:00Z")) [] in
  let t3 := Scenario.plain 3 (Some (Js.lit "2024-03-03T09:00:00Z")) [] in
  selectNew Iso.parse
    {| lastISO := Some (Js.lit "2024-03-02T09:00:00Z"); seenIds := Some [2] |}
    [t3; t2]
  = [t3].
Proof. vm_compute. reflexivity. Qed.

Lemma formatted_payloads (items : list Item) :
  Scenario.formats items = true →
  formatted Iso.parse Iso.format items (Scenario.payloads items).
Proof.
  unfold formatted, Scenario.formats, Scenario.payloads.
  induction items as [|a items IH]; simpl; [constructor|].
  destruct (buildDiscordMessage Iso.parse Iso.format a) eqn:Ha; [|done].
  simpl. intros H. constructor; [done|by apply IH].
Qed.

(** C1 at three cycles: a channel that fails on the second send of a
    batch of five; a cycle that finds nothing new; a cycle that delivers
    the whole batch and commits. *)
Lemma poll_commits_after_all_sends_witness :
  let poll := pollOnce Iso.parse Iso.format in
  let flaky := Scenario.env_of Scenario.five 1 in
  let ok := Scenario.env_ok Scenario.five in
  ((poll flaky Scenario.fresh).1 = Throw DiscordError
   ∧ length (sent (poll flaky Scenario.fresh).2) = 1%nat
   ∧ state (poll flaky Scenario.fresh).2 = state Scenario.fresh
   ∧ disk (poll flaky Scenario.fresh).2 = disk Scenario.fresh)
  ∧ poll ok Scenario.caught_up = (Ok (), Scenario.caught_up)
  ∧ ((poll ok Scenario.fresh).1 = Ok ()
     ∧ length (sent (poll ok Scenario.fresh).2) = 5%nat).
Proof.
  intros poll flaky ok.
  set (fetched := sort_items Iso.parse (List.map normalize Scenario.five)).
  destruct (poll_commits_after_all_sends Iso.parse Iso.format flaky
              Scenario.fresh) as (Hfail & _ & _).
  destruct (poll_commits_after_all_sends Iso.parse Iso.format ok
              Scenario.caught_up) as (_ & Hnone & _).
  destruct (poll_commits_after_all_sends Iso.parse Iso.format ok
              Scenario.fresh) as (_ & _ & Hdone).
  split_and!.
  - vm_compute. reflexivity.
  - vm_compute. reflexivity.
  - apply (Hfail DiscordError). vm_compute. reflexivity.
  - apply (Hfail DiscordError). vm_compute. reflexivity.
  - apply (Hnone fetched); vm_compute; reflexivity.
  - apply (Hdone fetched); [vm_compute; reflexivity|]. vm_compute. discriminate.
  - destruct (Hdone fetched) as (_ & ps & Hps & Hsent);
      [vm_compute; reflexivity|vm_compute; discriminate|].
    unfold poll. rewrite Hsent. apply Forall2_length in Hps.
    rewrite length_app, <- Hps. vm_compute. reflexivity.
Defined.

(** C4 at the scenario of the specification: a body of 5000 plain
    characters under a short title, author and url. *)
Lemma payload_within_limit_witness :
  let a := Scenario.plain 9 None (replicate 5000 120%N) in
  let header := header_of a (Js.lit "unknown time") in
  ∃ payload,
    buildDiscordMessage Iso.parse Iso.format a = Ok payload
    ∧ payload = header ++ replicate (1999 - length header - length (linkLine_of a)) 120%N
                ++ [Text.ELLIPSIS] ++ linkLine_of a
    ∧ Js.len payload ≤ MAX.
Proof.
  intros a header.
  destruct (payload_within_limit Iso.parse Iso.format a (Js.lit "unknown time"))
    as (payload & Hp & Hcut & Hlen); [vm_compute; reflexivity|].
  exists payload. split_and!.
  - exact Hp.
  - rewrite Hcut; [vm_compute; reflexivity|]. vm_compute. reflexivity.
  - apply Hlen. vm_compute. reflexivity.
Defined.

(** C8 at a list with two dated items and an undated one between them. *)
Lemma missing_sorts_as_epoch_witness :
  let newer := Scenario.plain 3 (Some (Js.lit "2024-03-05T09:00:00Z")) [] in
  let older := Scenario.plain 2 (Some (Js.lit "2024-03-01T09:00:00Z")) [] in
  let fetched := [older; Scenario.undated; newer] in
  sort_items Iso.parse fetched = [newer; older; Scenario.undated]
  ∧ sort_items Iso.parse fetched ≡ₚ fetched
  ∧ (1 < 2)%nat.
Proof.
  intros newer older fetched.
  destruct (missing_sorts_as_epoch Iso.parse fetched) as [Hperm Hafter].
  { repeat apply Forall_cons_2; [..|apply Forall_nil_2];
      intros H; vm_compute in H |- *; first [discriminate H|eauto]. }
  split_and!; [vm_compute; reflexivity|exact Hperm|].
  apply (Hafter 2%nat 1%nat Scenario.undated older).
  - vm_compute. reflexivity.
  - vm_compute. reflexivity.
  - vm_compute. reflexivity.
  - eexists. split; [vm_compute; reflexivity|]. lia.
Defined.



(** C6 at a state that holds the ids 1 to 499: two commits that bring
    three new ids between them keep 500 ids and evict the ids 1 and 2. *)
Lemma seen_ids_bounded_witness :
  let st := {| lastISO := None; seenIds := Some (seqZ 1 499) |} in
  let st1 := commits Iso.parse st [(None, [1000; 1001])] in
  let st2 := commits Iso.parse st
               ([(None, [1000; 1001])] ++ [(None, [1001; 1002])]) in
  (length (seen_or_empty st1) ≤ 500)%nat
  ∧ length (seen_or_empty st2) = 500%nat
  ∧ seenIds st2 = Some (seqZ 3 497 ++ [1000; 1001; 1002]).
Proof.
  intros st st1 st2.
  destruct (seen_ids_bounded Iso.parse st [(None, [1000; 1001])]
              None [1001; 1002]) as (_ & Hseen & _ & Hcap).
  split_and!.
  - apply Hcap. vm_compute. lia.
  - vm_compute. reflexivity.
  - etrans; [exact Hseen|]. vm_compute. reflexivity.
Defined.


(** * Further properties of the code *)

(** ** The pagination link *)

Section LinkFacts.

Import Text Paging.

Lemma split_on_cons c s : ∃ l ls, split_on c s = l :: ls.
Proof.
  destruct s as [|x s]; simpl; [by eexists _, _|].
  destruct (x =? c)%N; [by eexists _, _|].
  destruct (split_on c s); by eexists _, _.
Qed.

Lemma join_on_cons c l l' ls :
  join_on c (l :: l' :: ls) = l ++ c :: join_on c (l' :: ls).
Proof. done. Qed.

Lemma join_split_on c s : join_on c (split_on c s) = s.
Proof.
  induction s as [|x s IH]; [done|]. simpl.
  destruct (N.eqb_spec x c) as [->|Hx].
  - destruct (split_on_cons c s) as (l & ls & Hl). rewrite Hl in *.
    by rewrite join_on_cons, IH.
  - destruct (split_on c s) as [|l [|l' ls]];
      [by rewrite <- IH|by rewrite <- IH|].
    rewrite join_on_cons in IH. rewrite join_on_cons, <- IH. done.
Qed.

Lemma split_on_whole c l : c ∉ l → split_on c l = [l].
Proof.
  induction l as [|x l IH]; [done|]. intros Hc. simpl.
  destruct (N.eqb_spec x c) as [->|_]; [destruct Hc; by left|].
  rewrite IH; [done|]. intros ?. apply Hc. by right.
Qed.

Lemma split_on_sep c l s :
  c ∉ l → split_on c (l ++ c :: s) = l :: split_on c s.
Proof.
  induction l as [|x l IH]; intros Hc; simpl.
  - by rewrite N.eqb_refl.
  - destruct (N.eqb_spec x c) as [->|_]; [destruct Hc; by left|].
    rewrite IH; [done|]. intros ?. apply Hc. by right.
Qed.

(** Splitting what was joined gives the parts back, when no part holds the
    separator. *)
Lemma split_join_on c parts :
  parts ≠ [] → Forall (λ p, c ∉ p) parts →
  split_on c (join_on c parts) = parts.
Proof.
  intros Hne Hparts. induction Hparts as [|l [|l' ls] Hl Hls IH]; [done| |].
  - by apply split_on_whole.
  - rewrite join_on_cons, split_on_sep by done. by rewrite IH.
Qed.

Lemma includes_app_l pat x y : includes pat (x ++ y) = false → includes pat x = false.
Proof. apply occurs_app_l. Qed.

Lemma includes_app_r pat x y : includes pat (x ++ y) = false → includes pat y = false.
Proof. apply occurs_app_r. Qed.

Lemma includes_trim pat s : includes pat s = false → includes pat (trim s) = false.
Proof.
  destruct (trim_spec s) as (l & r & Hs & _ & _).
  revert Hs. generalize (trim s). intros core -> H.
  apply includes_app_r in H. by apply includes_app_l in H.
Qed.

Lemma includes_parts pat c parts :
  includes pat (join_on c parts) = false →
  Forall (λ p, includes pat p = false) parts.
Proof.
  induction parts as [|l [|l' ls] IH]; intros H.
  - constructor.
  - by repeat constructor.
  - rewrite join_on_cons in H. constructor.
    + by apply includes_app_l in H.
    + apply IH. apply includes_app_r in H.
      change (c :: join_on c (l' :: ls)) with ([c] ++ join_on c (l' :: ls)) in H.
      by apply includes_app_r in H.
Qed.

Lemma first_next_none parts :
  Forall (λ p, includes rel_next p = false) parts → first_next parts = None.
Proof. induction 1 as [|p parts Hp _ IH]; simpl; [done|]. by rewrite Hp. Qed.

(** No part of a header without the text [rel="next"] holds it. *)
Lemma parts_without_next (s : jsstr) :
  includes rel_next s = false →
  Forall (λ p, includes rel_next p = false)
         (List.map Text.trim (split_on COMMA s)).
Proof.
  intros H. apply Forall_fmap.
  rewrite <- (join_split_on COMMA s) in H.
  apply includes_parts in H.
  eapply Forall_impl; [exact H|]. intros p. apply includes_trim.
Qed.

(** X1. A header that is absent, empty or without the text [rel="next"]
    gives no next link. *)
Theorem parseNextLink_without_next (linkHeader : option jsstr) :
  includes rel_next (default [] linkHeader) = false →
  parseNextLink linkHeader = None.
Proof.
  destruct linkHeader as [[|c h]|]; [done| |done]. simpl default. intros H.
  unfold parseNextLink. by apply first_next_none, parts_without_next.
Qed.

(** The shape of a match of the tag pattern at the start of a text. *)
Lemma re_tag_shape s n :
  re_tag s = Some n →
  ∃ u rest, s = LT :: u ++ GT :: rest ∧ u ≠ [] ∧ (GT ∉ u)
            ∧ n = (length u + 2)%nat.
Proof.
  unfold re_tag. destruct s as [|c t]; [done|].
  destruct (N.eqb_spec c LT) as [->|]; [|done].
  pose proof (run_take_all (λ x, negb (x =? GT)%N) t) as Hall.
  pose proof (run_le (λ x, negb (x =? GT)%N) t) as Hle.
  destruct (run (λ x, negb (x =? GT)%N) t) as [|k] eqn:Hk; [done|].
  destruct (drop (S k) t) as [|x rest] eqn:Hdrop; [done|].
  intros [= <-].
  assert (Hx : x = GT).
  { rewrite <- Hk in Hdrop. apply run_drop_cons in Hdrop as [Hx _].
    by apply negb_false_iff, N.eqb_eq in Hx. }
  subst x. exists (take (S k) t), rest. split_and!.
  - f_equal. by rewrite <- Hdrop, take_drop.
  - intros Hnil. apply (f_equal length) in Hnil.
    rewrite length_take in Hnil. change (length []) with 0%nat in Hnil. lia.
  - by apply not_gt_all.
  - rewrite length_take. lia.
Qed.

Lemma match_link_cons c s :
  match_link (c :: s)
  = match re_tag (c :: s) with
    | Some n => Some (take (n - 2) (drop 1 (c :: s)))
    | None => match_link s
    end.
Proof. done. Qed.

Lemma match_link_Some s u :
  match_link s = Some u →
  u ≠ [] ∧ (GT ∉ u) ∧ ∃ a b, s = a ++ LT :: u ++ GT :: b.
Proof.
  induction s as [|c s IH]; [done|]. rewrite match_link_cons.
  destruct (re_tag (c :: s)) as [n|] eqn:Hre.
  - apply re_tag_shape in Hre as (v & rest & Hs & Hv & Hgt & ->).
    rewrite Hs. change (drop 1 (LT :: v ++ GT :: rest)) with (v ++ GT :: rest).
    replace (length v + 2 - 2)%nat with (length v) by lia.
    rewrite take_app_length. intros [= Hu]. subst u.
    split_and!; [done|done|]. by exists [], rest.
  - intros (Hu & Hgt & a & b & ->)%IH. split_and!; [done|done|].
    by exists (c :: a), b.
Qed.

Lemma first_next_Some parts u :
  first_next parts = Some u →
  ∃ p, p ∈ parts ∧ includes rel_next p = true ∧ match_link p = Some u.
Proof.
  induction parts as [|p parts IH]; simpl; [done|].
  destruct (includes rel_next p) eqn:Hp.
  - destruct (match_link p) as [v|] eqn:Hm.
    + intros [= <-]. exists p. split_and!; [by left|done|done].
    + intros (q & ? & ? & ?)%IH. exists q. split_and!; [by right|done|done].
  - intros (q & ? & ? & ?)%IH. exists q. split_and!; [by right|done|done].
Qed.

Lemma join_on_elem c parts p :
  p ∈ parts → ∃ a b, join_on c parts = a ++ p ++ b.
Proof.
  induction parts as [|l [|l' ls] IH]; intros Hp.
  - by apply elem_of_nil in Hp.
  - apply list_elem_of_singleton in Hp as ->. exists [], []. simpl.
    by rewrite app_nil_r.
  - rewrite join_on_cons. apply elem_of_cons in Hp as [->|Hp].
    + exists [], (c :: join_on c (l' :: ls)). done.
    + destruct (IH Hp) as (a & b & ->).
      exists (l ++ c :: a), b. by rewrite <- app_assoc.
Qed.

Lemma parseNextLink_nonempty (linkHeader : option jsstr) (u : jsstr) :
  parseNextLink linkHeader = Some u → u ≠ [].
Proof.
  destruct linkHeader as [[|c h]|]; [done| |done].
  unfold parseNextLink. intros (p & _ & _ & Hm)%first_next_Some.
  by apply match_link_Some in Hm as (Hne & _).
Qed.

(** X2. What [parseNextLink] returns stands in the header between angle
    brackets: it is not empty, holds no [>], and the header mentions
    [rel="next"]. *)
Theorem parseNextLink_sound (linkHeader : option jsstr) (u : jsstr) :
  parseNextLink linkHeader = Some u →
  u ≠ [] ∧ (GT ∉ u)
  ∧ includes rel_next (default [] linkHeader) = true
  ∧ ∃ a b, linkHeader = Some (a ++ LT :: u ++ GT :: b).
Proof.
  intros Hu.
  destruct linkHeader as [[|c h]|]; [done| |done].
  unfold parseNextLink in Hu.
  assert (Hinc : includes rel_next (c :: h) = true).
  { destruct (includes rel_next (c :: h)) eqn:H; [done|].
    apply parts_without_next, first_next_none in H. congruence. }
  apply first_next_Some in Hu as (p & Hp & _ & Hm).
  apply list_elem_of_fmap in Hp as (q & -> & Hq).
  apply match_link_Some in Hm as (Hne & Hgt & a & b & Htrim).
  split_and!; [done|done|done|].
  destruct (trim_spec q) as (l & r & Hq' & _ & _). rewrite Htrim in Hq'.
  destruct (join_on_elem COMMA _ _ Hq) as (a' & b' & Hjoin).
  rewrite join_split_on in Hjoin.
  exists (a' ++ l ++ a), (b ++ r ++ b'). f_equal.
  rewrite Hjoin, Hq'. rewrite <- !app_assoc. simpl. by rewrite <- !app_assoc.
Qed.

Lemma run_app_stop p (l : jsstr) x r :
  Forall (λ c, p c = true) l → p x = false → run p (l ++ x :: r) = length l.
Proof.
  induction 1 as [|c l Hc _ IH]; intros Hx; simpl; [by rewrite Hx|].
  by rewrite Hc, IH.
Qed.

(** [trim] strips the white space before a text that begins and ends with
    other code units, and nothing else. *)
Lemma trim_core sp x mid y :
  Forall (λ c, is_space c = true) sp →
  is_space x = false → is_space y = false →
  trim (sp ++ x :: mid ++ [y]) = x :: mid ++ [y].
Proof.
  intros Hsp Hx Hy. unfold trim, trim_start.
  rewrite run_app_stop by done. rewrite drop_app_length.
  change (x :: mid ++ [y]) with ((x :: mid) ++ [y]).
  rewrite reverse_app. simpl. rewrite Hy. simpl.
  change (y :: reverse (x :: mid)) with ([y] ++ reverse (x :: mid)).
  by rewrite reverse_app, reverse_involutive.
Qed.

Lemma includes_suffix pat a : includes pat (a ++ pat) = true.
Proof.
  unfold includes. induction a as [|c a IH]; simpl.
  - assert (H : starts_with pat pat = true).
    { apply starts_with_prefix. done. }
    destruct pat; simpl in *; by rewrite ?H.
  - destruct (starts_with pat (c :: a ++ pat)); [done|]. apply IH.
Qed.

Lemma re_tag_entry u rest :
  u ≠ [] → GT ∉ u → re_tag (LT :: u ++ GT :: rest) = Some (length u + 2)%nat.
Proof.
  intros Hu Hgt. unfold re_tag. rewrite N.eqb_refl.
  rewrite run_app_stop; [|by apply not_gt_all|by rewrite N.eqb_refl].
  destruct (length u) as [|k] eqn:Hk; [by destruct u|].
  rewrite <- Hk, drop_app_length. f_equal. lia.
Qed.

Lemma match_link_entry u rest :
  u ≠ [] → GT ∉ u → match_link (LT :: u ++ GT :: rest) = Some u.
Proof.
  intros Hu Hgt. rewrite match_link_cons, re_tag_entry by done.
  change (drop 1 (LT :: u ++ GT :: rest)) with (u ++ GT :: rest).
  replace (length u + 2 - 2)%nat with (length u) by lia.
  by rewrite take_app_length.
Qed.

Lemma first_next_skip before rest :
  Forall (λ p, includes rel_next p = false) before →
  first_next (before ++ rest) = first_next rest.
Proof. induction 1 as [|p ps Hp _ IH]; simpl; [done|]. by rewrite Hp. Qed.

Lemma parseNextLink_parts parts :
  join_on COMMA parts ≠ [] → Forall (λ p, COMMA ∉ p) parts →
  parseNextLink (Some (join_on COMMA parts))
  = first_next (List.map trim parts).
Proof.
  intros Hne Hparts. unfold parseNextLink.
  destruct (join_on COMMA parts) as [|c h] eqn:Hj; [done|].
  rewrite <- Hj, split_join_on; [done| |done]. by intros ->.
Qed.

Lemma space_not_comma sp :
  Forall (λ c, is_space c = true) sp → COMMA ∉ sp.
Proof.
  intros Hsp Hin. rewrite Forall_forall in Hsp. by specialize (Hsp _ Hin).
Qed.

(** X3. Round trip of a header: in a header made of comma-separated
    parts, of which those before the entry [<u>; rel="next"] do not mention
    [rel="next"], [parseNextLink] reads [u] back, for every [u] that is not
    empty and holds neither a comma nor [>]; white space before the entry
    and the parts after it make no difference. *)
Theorem parseNextLink_entry (before after : list jsstr) (sp u : jsstr) :
  Forall (λ p, (COMMA ∉ p) ∧ includes rel_next p = false) before →
  Forall (λ p, COMMA ∉ p) after →
  Forall (λ c, is_space c = true) sp →
  u ≠ [] → COMMA ∉ u → GT ∉ u →
  parseNextLink
    (Some (join_on COMMA (before ++ (sp ++ entry u (Js.lit "next")) :: after)))
  = Some u.
Proof.
  intros Hbefore Hafter Hsp Hu Hcomma Hgt.
  rewrite parseNextLink_parts.
  - rewrite map_app. simpl List.map. rewrite first_next_skip.
    + assert (Htrim : trim (sp ++ entry u (Js.lit "next"))
                      = entry u (Js.lit "next")).
      { assert (Hshape : entry u (Js.lit "next")
                  = LT :: (u ++ GT :: Js.lit "; rel=" ++ QUOT :: Js.lit "next")
                          ++ [QUOT]).
        { unfold entry. simpl. f_equal. rewrite <- app_assoc. reflexivity. }
        rewrite Hshape. by apply trim_core. }
      simpl first_next. rewrite Htrim.
      assert (Hinc : includes rel_next (entry u (Js.lit "next")) = true).
      { change (entry u (Js.lit "next"))
          with (LT :: u ++ [GT; 59; 32]%N ++ rel_next).
        change (LT :: u ++ [GT; 59; 32]%N ++ rel_next)
          with ([LT] ++ u ++ [GT; 59; 32]%N ++ rel_next).
        rewrite !app_assoc. apply includes_suffix. }
      rewrite Hinc. unfold entry. simpl app. by rewrite match_link_entry.
    + apply Forall_fmap. eapply Forall_impl; [exact Hbefore|].
      intros p [_ Hp]. by apply includes_trim.
  - destruct (join_on_elem COMMA
      (before ++ (sp ++ entry u (Js.lit "next")) :: after)
      (sp ++ entry u (Js.lit "next"))) as (a & b & ->).
    { apply elem_of_app. right. by left. }
    intros Hnil. apply app_eq_nil in Hnil as [_ Hnil].
    apply app_eq_nil in Hnil as [Hnil _].
    apply app_eq_nil in Hnil as [_ Hnil]. done.
  - apply Forall_app. split; [by eapply Forall_impl; [exact Hbefore|intros ? []]|].
    constructor; [|done].
    pose proof (space_not_comma _ Hsp) as Hsp'.
    unfold entry. rewrite !elem_of_app. intros H. destruct_or! H;
      try done; vm_compute in H;
      repeat (apply elem_of_cons in H as [H|H]; [done|]);
      by apply elem_of_nil in H.
Qed.

Lemma includes_infix pat s :
  includes pat s = true → ∃ a b, s = a ++ pat ++ b.
Proof.
  unfold includes. induction s as [|c s IH]; simpl.
  - destruct (starts_with pat []) eqn:H; [|done].
    apply starts_with_prefix in H as [b ->]. by exists [], b.
  - destruct (starts_with pat (c :: s)) eqn:H.
    + apply starts_with_prefix in H as [b ->]. by exists [], b.
    + intros (a & b & ->)%IH. by exists (c :: a), b.
Qed.

Lemma match_link_no_lt s : LT ∉ s → match_link s = None.
Proof.
  induction s as [|c s IH]; intros Hlt; [done|]. rewrite match_link_cons.
  destruct (re_tag (c :: s)) eqn:Hre.
  - apply re_tag_shape in Hre as (? & ? & [= -> _] & _). destruct Hlt. by left.
  - apply IH. intros ?. apply Hlt. by right.
Qed.

Lemma trim_elem c s : c ∈ trim s → c ∈ s.
Proof.
  destruct (trim_spec s) as (l & r & Hs & _ & _). intros H.
  rewrite Hs, !elem_of_app. auto.
Qed.

(** X4. A comma inside the url of the next link breaks it: the header is
    split at every comma, so the part that mentions [rel="next"] has lost
    its [<], and no next link is found. *)
Theorem parseNextLink_comma_in_url (a b : jsstr) :
  COMMA ∉ a → COMMA ∉ b → QUOT ∉ a → LT ∉ b →
  parseNextLink (Some (entry (a ++ COMMA :: b) (Js.lit "next"))) = None.
Proof.
  intros Ha Hb Hq Hlt.
  set (tail := b ++ [GT] ++ Js.lit "; rel=" ++ [QUOT] ++ Js.lit "next" ++ [QUOT]).
  assert (Hj : entry (a ++ COMMA :: b) (Js.lit "next")
               = join_on COMMA [LT :: a; tail]).
  { unfold entry, tail. simpl. by rewrite <- app_assoc. }
  rewrite Hj, parseNextLink_parts.
  - simpl.
    assert (H1 : includes rel_next (trim (LT :: a)) = false).
    { apply includes_trim.
      destruct (includes rel_next (LT :: a)) eqn:H; [|done].
      apply includes_infix in H as (x & y & H).
      assert (Hin : QUOT ∈ LT :: a).
      { rewrite H, !elem_of_app. right. left. unfold rel_next.
        rewrite !elem_of_app. right. left. by left. }
      apply elem_of_cons in Hin as [?|?]; done. }
    rewrite H1.
    assert (H2 : match_link (trim tail) = None).
    { apply match_link_no_lt. intros Hin%trim_elem. unfold tail in Hin.
      rewrite !elem_of_app in Hin. destruct_or! Hin; try done;
        vm_compute in Hin;
        repeat (apply elem_of_cons in Hin as [Hin|Hin]; [done|]);
        by apply elem_of_nil in Hin. }
    rewrite H2. by destruct (includes rel_next (trim tail)).
  - done.
  - repeat constructor.
    + intros [?|?]%elem_of_cons; done.
    + unfold tail. rewrite !elem_of_app. intros Hin. destruct_or! Hin;
        try done; vm_compute in Hin;
        repeat (apply elem_of_cons in Hin as [Hin|Hin]; [done|]);
        by apply elem_of_nil in Hin.
Qed.

End LinkFacts.

(** ** Following the pages *)

Section PagingFacts.

Import Paging.

Variable server : jsstr → option Response.

(** More fuel does not change a result. *)
Lemma getAll_from_more_fuel fuel fuel' out next r :
  getAll_from server fuel out next = Some r → (fuel ≤ fuel')%nat →
  getAll_from server fuel' out next = Some r.
Proof.
  revert fuel' out next. induction fuel as [|fuel IH]; intros fuel' out next.
  - destruct next as [[|c u]|]; simpl; [|done|];
      intros H _; by destruct fuel'.
  - intros H Hle. destruct fuel' as [|fuel']; [lia|].
    destruct next as [[|c u]|]; [done| |done]. simpl in *.
    destruct (server (c :: u)) as [res|]; [|done].
    destruct (negb (ok res)); [done|].
    destruct (json res) as [page|]; [|done].
    apply IH; [done|lia].
Qed.

Lemma getAll_from_done fuel out next :
  Js.truthy next = false → getAll_from server fuel out next = Some (inr out).
Proof. by destruct fuel, next as [[|??]|]. Qed.

(** The loop over the pages the source serves. *)
Lemma getAll_from_reaches start pages next fuel out :
  reaches server start pages next →
  getAll_from server (length pages + fuel) out start
  = getAll_from server fuel (out ++ concat pages) next.
Proof.
  intros H. revert out.
  induction H as [next|c u res page pages next Hres Hok Hjson _ IH];
    intros out; simpl.
  - by rewrite app_nil_r.
  - rewrite Hres, Hok, Hjson. simpl. by rewrite IH, <- app_assoc.
Qed.

(** X5. When the source serves a chain of pages, each ok and linked to the
    following one, and the last page has no next link, [getAll] returns the
    records of all pages in the order served, as soon as the fuel covers
    the number of pages; with less fuel the loop has not finished. *)
Theorem getAll_concatenates (url : jsstr) (pages : list (list RawAnn))
    (fuel : nat) :
  reaches server (Some url) pages None →
  ((length pages ≤ fuel)%nat →
     getAll server fuel url = Some (inr (concat pages)))
  ∧ ((fuel < length pages)%nat → getAll server fuel url = None).
Proof.
  intros Hreach. split.
  - intros Hle. unfold getAll.
    replace fuel with (length pages + (fuel - length pages))%nat by lia.
    rewrite (getAll_from_reaches _ _ _ _ _ Hreach).
    by rewrite getAll_from_done.
  - unfold getAll. generalize (@nil RawAnn).
    revert fuel.
    remember (Some url) as start eqn:Hs. remember None as final eqn:Hf.
    clear Hs url.
    induction Hreach as [next|c u res page pages next Hres Hok Hjson Hrest IH];
      intros fuel out Hlt; simpl in Hlt; [lia|].
    destruct fuel as [|fuel]; [done|]. simpl.
    rewrite Hres, Hok, Hjson. simpl. apply IH; [done|lia].
Qed.

(** X6. A page that is not ok fails the whole call with the status, the
    status text and the body of that page (empty when the body cannot be
    read), however many pages were fetched before: their records are not
    returned. *)
Theorem getAll_fails_on_bad_page (url : jsstr) (pages : list (list RawAnn))
    (c : N) (bad : jsstr) (res : Response) (fuel : nat) :
  reaches server (Some url) pages (Some (c :: bad)) →
  server (c :: bad) = Some res →
  ok res = false →
  (length pages < fuel)%nat →
  getAll server fuel url
  = Some (inl (HttpError (status res) (statusText res)
                 (default [] (text res)))).
Proof.
  intros Hreach Hres Hok Hlt. unfold getAll.
  replace fuel with (length pages + S (fuel - length pages - 1))%nat by lia.
  rewrite (getAll_from_reaches _ _ _ _ _ Hreach). simpl.
  by rewrite Hres, Hok.
Qed.

(** X7. The loop has no guard against a source whose pages never stop:
    when every page requested is ok, is JSON and carries a next link,
    [getAll] does not return, whatever the number of pages allowed. *)
Theorem getAll_never_returns (url : jsstr) (fuel : nat) :
  (∀ u, ∃ res, server u = Some res ∧ ok res = true
               ∧ is_Some (json res)
               ∧ is_Some (parseNextLink (link res))) →
  url ≠ [] →
  getAll server fuel url = None.
Proof.
  intros Hall Hurl. unfold getAll. generalize (@nil RawAnn).
  revert url Hurl. induction fuel as [|fuel IH]; intros url Hurl out.
  - by destruct url.
  - destruct url as [|c u]; [done|]. simpl.
    destruct (Hall (c :: u)) as (res & -> & -> & [page ->] & [next Hnext]).
    simpl. rewrite Hnext.
    apply parseNextLink_nonempty in Hnext. by apply IH.
Qed.

End PagingFacts.

(** ** Start-up and the state file *)

Section BootFacts.

Variable date_parse : jsstr → option Z.
Variable toISOString : Z → jsstr.

Local Abbreviation pollOnce := (pollOnce date_parse toISOString).
Local Abbreviation cycles := (cycles date_parse toISOString).

(** With a writable state file, a cycle either changes nothing or leaves
    the file equal to the state in memory. *)
Lemma pollOnce_file_in_step env w :
  state_path env = true → disk_writable env = true →
  (state (pollOnce env w).2 = state w ∧ disk (pollOnce env w).2 = disk w)
  ∨ disk (pollOnce env w).2 = Some (state (pollOnce env w).2).
Proof.
  intros Hpath Hwr. rewrite pollOnce_eq.
  destruct (poll_fetch date_parse toISOString env (state w)); [|by left].
  destruct (selectNew date_parse (state w) a) as [|b newer]; [by left|].
  cbv zeta.
  pose proof (postToDiscord_frame date_parse toISOString env (b :: newer) w)
    as [Hst Hdk].
  destruct (postToDiscord date_parse toISOString env (b :: newer) w)
    as [[[]|e] w1]; simpl in Hst, Hdk; [|by left].
  right. rewrite commit_eq. simpl. by rewrite Hpath, Hwr.
Qed.

(** X8. Persistence round trip: with a state file configured and writable
    in every cycle, a restart at any point after any number of cycles reads
    back exactly the state the process had in memory (the file found at
    the first start, or else the seed, as long as nothing was committed). *)
Theorem restart_resumes_state (env : Env) (START_ISO : option jsstr)
    (file : option State) (envs : list Env) :
  state_path env = true →
  Forall (λ e, state_path e = true ∧ disk_writable e = true) envs →
  let w := cycles envs (Boot.initial env START_ISO file) in
  Boot.readState env (disk w) (Boot.seed START_ISO) = state w.
Proof.
  intros Hpath Henvs. cbv zeta.
  assert (H0 : Boot.readState env (disk (Boot.initial env START_ISO file))
                 (Boot.seed START_ISO)
               = state (Boot.initial env START_ISO file)) by done.
  revert H0. generalize (Boot.initial env START_ISO file).
  induction Henvs as [|e envs [He1 He2] _ IH]; intros w Hw; [done|].
  simpl. apply IH.
  destruct (pollOnce_file_in_step e w He1 He2) as [[-> ->]| ->]; [done|].
  unfold Boot.readState. by rewrite Hpath.
Qed.

(** X9. The health endpoint: [/status] throws exactly when the state has
    no [seenIds] (a state file without that field), and after any commit it
    answers with the current watermark and a count of at most 500; every
    other url gets the liveness answer. *)
Theorem health_answers (st : State)
    (cs : list (option jsstr * list ann_id))
    (newISO : option jsstr) (newIds : list ann_id) (url : jsstr) :
  let st' := commits date_parse st (cs ++ [(newISO, newIds)]) in
  (Boot.health st (Js.lit "/status") = None ↔ seenIds st = None)
  ∧ (∃ n, Boot.health st' (Js.lit "/status") = Some (Boot.Status (lastISO st') n)
          ∧ (n ≤ 500)%nat)
  ∧ (url ≠ Js.lit "/status" → Boot.health st url = Some Boot.Alive).
Proof.
  intros st'. split_and!.
  - unfold Boot.health. simpl. by destruct (seenIds st).
  - assert (Hst' : st' = updateState date_parse (commits date_parse st cs)
                           newISO newIds).
    { unfold st'. by rewrite commits_app. }
    pose proof (seen_bounded_after_commit date_parse
                  (commits date_parse st cs) newISO newIds) as Hb.
    rewrite <- Hst' in Hb. unfold seen_or_empty in Hb.
    unfold Boot.health. simpl.
    destruct (seenIds st') as [ids|] eqn:Hids.
    + exists (length ids). done.
    + rewrite Hst' in Hids. done.
  - intros Hurl. unfold Boot.health, Js.eqb.
    by rewrite bool_decide_eq_false_2.
Qed.

Lemma trim_nil_iff s :
  Text.trim s = [] ↔ Forall (λ c, Text.is_space c = true) s.
Proof.
  split.
  - intros H. destruct (trim_spec s) as (l & r & Hs & Hl & Hr).
    rewrite H in Hs. rewrite Hs. by apply Forall_app.
  - intros H. unfold Text.trim, Text.trim_start.
    apply run_drop_nil in H. by rewrite H.
Qed.

Lemma find_None_iff {A} (f : A → bool) (l : list A) :
  List.find f l = None ↔ Forall (λ x, f x = false) l.
Proof.
  induction l as [|x l IH]; simpl; [by split|].
  destruct (f x) eqn:Hx.
  - split; [done|]. inversion 1; congruence.
  - rewrite IH. split; [by constructor|]. by inversion 1.
Qed.

(** X10. The start-up check lets the process run exactly when each of the
    five required variables is set to a value with at least one code unit
    that is not white space; otherwise the variable it reports is a
    required one that is unset, empty or blank. *)
Theorem missing_var_spec (penv : string → option jsstr) :
  (Boot.missing_var penv = None
   ↔ ∀ k, k ∈ Boot.required →
       ∃ v c, penv k = Some v ∧ c ∈ v ∧ Text.is_space c = false)
  ∧ ∀ k, Boot.missing_var penv = Some k →
      k ∈ Boot.required
      ∧ Forall (λ c, Text.is_space c = true) (default [] (penv k)).
Proof.
  assert (Hblank : ∀ k, Boot.blank penv k = false
            ↔ ∃ v c, penv k = Some v ∧ c ∈ v ∧ Text.is_space c = false).
  { intros k. unfold Boot.blank.
    rewrite orb_false_iff, !negb_false_iff. split.
    - intros [Hk Htrim]. destruct (penv k) as [v|]; [|done].
      simpl in Htrim.
      assert (Hex : Exists (λ c, Text.is_space c ≠ true) v).
      { apply not_Forall_Exists; [intros c; apply _|].
        intros Hall%trim_nil_iff. by rewrite Hall in Htrim. }
      apply Exists_exists in Hex as (c & Hc & Hsp).
      exists v, c. split_and!; [done|done|]. by destruct (Text.is_space c).
    - intros (v & c & -> & Hc & Hsp). simpl.
      assert (Hne : Text.trim v ≠ []).
      { intros Hall%trim_nil_iff. rewrite Forall_forall in Hall.
        specialize (Hall _ Hc). congruence. }
      split; [by destruct v; [apply elem_of_nil in Hc|]|].
      by destruct (Text.trim v). }
  split.
  - unfold Boot.missing_var. rewrite find_None_iff, Forall_forall.
    split; intros H k Hk; apply Hblank; by apply H.
  - intros k Hk. unfold Boot.missing_var in Hk.
    pose proof (find_some _ _ Hk) as [Hin Hb].
    split; [by apply list_elem_of_In|].
    unfold Boot.blank in Hb. destruct (penv k) as [v|]; [|done]. simpl in *.
    apply orb_true_iff in Hb as [Hb|Hb].
    + by destruct v.
    + apply trim_nil_iff. by destruct (Text.trim v).
Qed.

End BootFacts.

(** ** The shape of normalised text *)

Section TextShapeFacts.

Import Text.

Lemma trim_start_head s c :
  head (trim_start s) = Some c → is_space c = false.
Proof.
  unfold trim_start.
  destruct (drop (run is_space s) s) as [|x r] eqn:Hd; [done|].
  intros [= <-]. by apply run_drop_cons in Hd as [? _].
Qed.

Lemma last_drop_Some {A} k (l : list A) x :
  last (drop k l) = Some x → last l = Some x.
Proof.
  intros H. rewrite <- (take_drop k l).
  destruct (drop k l) as [|y r] eqn:Hd; [done|].
  rewrite last_app. by rewrite H.
Qed.

Lemma trim_last s c : last (trim s) = Some c → is_space c = false.
Proof. unfold trim. rewrite last_reverse. apply trim_start_head. Qed.

Lemma trim_head s c : head (trim s) = Some c → is_space c = false.
Proof.
  unfold trim. rewrite head_reverse. unfold trim_start at 1.
  intros H%last_drop_Some. rewrite last_reverse in H.
  by apply trim_start_head in H.
Qed.

Lemma run_app_le p (x y : jsstr) : (run p x ≤ run p (x ++ y))%nat.
Proof.
  induction x as [|c x IH]; simpl; [lia|]. destruct (p c); simpl; lia.
Qed.

Lemma run_after_run p (x : jsstr) : run p (drop (run p x) x) = O.
Proof.
  induction x as [|c x IH]; simpl; [done|].
  destruct (p c) eqn:Hc; simpl; [done|by rewrite Hc].
Qed.

Lemma re_nl3_None s :
  re_nl3 s = None ↔ (run (λ x, (x =? NL)%N) s < 3)%nat.
Proof.
  unfold re_nl3. destruct (Nat.leb_spec 3 (run (λ x, (x =? NL)%N) s));
    split; try done; lia.
Qed.

Lemma occurs_app_l_mono re (x y : jsstr) :
  (∀ a b, re (a ++ b) = None → re a = None) →
  occurs re (x ++ y) = false → occurs re x = false.
Proof.
  intros Hmono. induction x as [|c x IH].
  - intros H%occurs_top. apply occurs_nil. by apply (Hmono [] y).
  - simpl app. intros [Hre H]%occurs_cons. apply occurs_cons.
    split; [by apply (Hmono (c :: x) y)|by apply IH].
Qed.

Lemma no_blank_run_trim s :
  occurs re_nl3 s = false → occurs re_nl3 (trim s) = false.
Proof.
  destruct (trim_spec s) as (l & r & Hs & _ & _).
  revert Hs. generalize (trim s). intros core -> H.
  apply occurs_app_r in H. eapply occurs_app_l_mono; [|exact H].
  intros a b. rewrite !re_nl3_None.
  pose proof (run_app_le (λ x, (x =? NL)%N) a b). lia.
Qed.

(** Replacing every run of three or more line feeds by two leaves no such
    run. *)
Lemma collapse_no_blank_run s :
  occurs re_nl3 (replace_all re_nl3 (λ _, [NL; NL]) s) = false.
Proof.
  set (r := run (λ x, (x =? NL)%N)).
  cut (occurs re_nl3 (replace_all re_nl3 (λ _, [NL; NL]) s) = false
       ∧ ((r s < 3)%nat → r (replace_all re_nl3 (λ _, [NL; NL]) s) = r s)
       ∧ ((3 ≤ r s)%nat → r (replace_all re_nl3 (λ _, [NL; NL]) s) = 2%nat)).
  { by intros [? _]. }
  apply (replace_all_ind re_nl3 (λ _, [NL; NL])
    (λ s out, occurs re_nl3 out = false
              ∧ ((r s < 3)%nat → r out = r s)
              ∧ ((3 ≤ r s)%nat → r out = 2%nat))); clear s.
  - split_and!; [done|done|]. unfold r. simpl. lia.
  - intros c s Hnone (IH1 & IH2 & IH3).
    assert (Hlt : (r (c :: s) < 3)%nat).
    { apply re_nl3_None. destruct Hnone as [?|H0]; [done|].
      apply re_nl3_Some in H0 as [? _]. lia. }
    assert (Hout : r (c :: replace_all re_nl3 (λ _, [NL; NL]) s) = r (c :: s)).
    { unfold r in *. simpl in *. destruct (c =? NL)%N; [|done].
      rewrite IH2; [done|lia]. }
    split_and!.
    + apply occurs_cons. split; [|done]. apply re_nl3_None. fold r. lia.
    + done.
    + lia.
  - intros c s n Hre (IH1 & IH2 & IH3).
    destruct (re_nl3_Some _ _ Hre) as [Hge Hrun]. fold r in Hrun.
    assert (Hrest : r (replace_all re_nl3 (λ _, [NL; NL]) (drop n s)) = O).
    { assert (H0 : r (drop n s) = O).
      { change (drop n s) with (drop (S n) (c :: s)). rewrite Hrun.
        apply run_after_run. }
      rewrite IH2; [done|lia]. }
    cbn [app].
    assert (H2 : r (NL :: NL :: replace_all re_nl3 (λ _, [NL; NL]) (drop n s))
                 = 2%nat).
    { unfold r in *. simpl. by rewrite Hrest. }
    split_and!.
    + apply occurs_cons. split; [apply re_nl3_None; fold r; lia|].
      apply occurs_cons. split; [|done]. apply re_nl3_None.
      unfold r in *. simpl. rewrite Hrest. lia.
    + lia.
    + done.
Qed.

(** X11. The text [htmlToText] returns neither begins nor ends with white
    space, and it holds no run of three or more line feeds: at most one
    blank line in a row. *)
Theorem htmlToText_tidy (html : jsstr) :
  let out := htmlToText html in
  (∀ c, head out = Some c → is_space c = false)
  ∧ (∀ c, last out = Some c → is_space c = false)
  ∧ occurs re_nl3 out = false.
Proof.
  destruct html as [|c html]; [done|]. unfold htmlToText, tidy.
  split_and!.
  - apply trim_head.
  - apply trim_last.
  - apply no_blank_run_trim, collapse_no_blank_run.
Qed.

Lemma upper_LT c : (upper LT =? upper c)%N = true → c = LT.
Proof.
  intros H%N.eqb_eq. unfold upper, LT in *. simpl in H.
  destruct ((97 <=? c) && (c <=? 122))%N eqn:Hc; [|done].
  apply andb_true_iff in Hc as [H1%N.leb_le H2%N.leb_le]. lia.
Qed.

(** A pattern that can only match at a [<] leaves a text without [<]
    alone. *)
Lemma replace_all_without c0 re f s :
  (∀ c t n, re (c :: t) = Some (S n) → c = c0) →
  c0 ∉ s → replace_all re f s = s.
Proof.
  intros Hre.
  apply (replace_all_ind re f (λ s out, c0 ∉ s → out = s)); clear s.
  - done.
  - intros c s _ IH Hlt. f_equal. apply IH. intros ?. apply Hlt. by right.
  - intros c s n Hm _ Hlt. apply Hre in Hm as ->. destruct Hlt. by left.
Qed.

Lemma re_lit_ci_LT p c t n :
  re_lit_ci (LT :: p) (c :: t) = Some n → c = LT.
Proof.
  unfold re_lit_ci. cbn [starts_with_ci].
  destruct (upper LT =? upper c)%N eqn:H; [|done]. intros _.
  by apply upper_LT.
Qed.

Lemma re_br_LT c t n : re_br (c :: t) = Some n → c = LT.
Proof.
  unfold re_br.
  destruct (starts_with_ci (Js.lit "<br") (c :: t)) eqn:H; [|done].
  intros _. change (Js.lit "<br") with (LT :: Js.lit "br") in H.
  cbn [starts_with_ci] in H. apply andb_true_iff in H as [H _].
  by apply upper_LT.
Qed.

(** X12. Plain text passes through: on a text without [<] and without
    [&], [htmlToText] does nothing but tidy the white space (trim every
    line, collapse blank lines, trim the whole). *)
Theorem htmlToText_plain (html : jsstr) :
  LT ∉ html → AMP ∉ html → htmlToText html = tidy html.
Proof.
  intros Hlt Hamp. destruct html as [|c html]; [done|].
  unfold htmlToText. f_equal.
  assert (Hstrip : strip_markup (c :: html) = c :: html).
  { unfold strip_markup.
    rewrite (replace_all_without LT re_br);
      [|intros ???; apply re_br_LT|done].
    rewrite (replace_all_without LT (re_lit_ci (Js.lit "</p>")));
      [|intros ???; apply re_lit_ci_LT|done].
    rewrite (replace_all_without LT (re_lit_ci (Js.lit "<li>")));
      [|intros ???; apply re_lit_ci_LT|done].
    rewrite (replace_all_without LT (re_lit_ci (Js.lit "</li>")));
      [|intros ???; apply re_lit_ci_LT|done].
    apply (replace_all_without LT re_tag); [|done].
    intros c' t n H. by apply re_tag_shape in H as (? & ? & [= -> _] & _). }
  rewrite Hstrip. unfold decode_entities.
  apply (replace_all_without AMP re_ent); [|done].
  intros c' t n H. destruct (decide (c' = AMP)) as [->|Hne]; [done|].
  by rewrite re_ent_head in H.
Qed.

End TextShapeFacts.

(** ** Truncation *)

Section TruncationFacts.

Variable date_parse : jsstr → option Z.
Variable toISOString : Z → jsstr.

(** X13. A truncated payload fills the budget exactly: when header and
    footer are shorter than 2000 units and the body is longer than what is
    left, the payload is the header, the first [maxBody - 1] units of the
    body, the ellipsis and the footer, 2000 units in all. *)
Theorem truncated_payload_fills_budget (a : Item) (when : jsstr) :
  when_ date_parse toISOString a = Ok when →
  let header := header_of a when in
  let linkLine := linkLine_of a in
  let maxBody := maxBody_of header linkLine in
  Js.len header + Js.len linkLine < MAX →
  Js.len (message a) > maxBody →
  ∃ payload,
    buildDiscordMessage date_parse toISOString a = Ok payload
    ∧ payload = header ++ take (Z.to_nat (maxBody - 1)) (message a)
                ++ [Text.ELLIPSIS] ++ linkLine
    ∧ Js.len payload = MAX.
Proof.
  intros Hw header linkLine maxBody Hroom Hlong.
  assert (Hmb : maxBody = MAX - Js.len header - Js.len linkLine).
  { unfold maxBody, maxBody_of. lia. }
  eexists. split; [by apply buildDiscordMessage_eq|].
  fold header linkLine maxBody. unfold body_of.
  destruct (Z.gtb_spec (Js.len (message a)) maxBody) as [_|Hle]; [|lia].
  rewrite slice_0_nonneg by lia. split; [by rewrite <- app_assoc|].
  unfold Js.len in *. rewrite !length_app, length_take. cbn [length]. lia.
Qed.

End TruncationFacts.

(** ** Order and stability of the sort *)

Section SortedFacts.

Variable date_parse : jsstr → option Z.

Local Abbreviation key_of := (key_of date_parse).
Local Abbreviation sort_items := (sort_items date_parse).
Local Abbreviation dated := (dated date_parse).

Lemma insert_same_key (k : Z) a l :
  dated a → Forall dated l →
  List.filter (λ b, key_of b =? k)
    (Js.insert (newest_first date_parse) a l)
  = List.filter (λ b, key_of b =? k) (a :: l).
Proof.
  intros Ha Hl. induction Hl as [|b l Hb Hl IH]; [done|].
  cbn [Js.insert]. rewrite not_after_dated by done.
  case_bool_decide as Hab; [done|].
  cbn [List.filter]. rewrite IH. cbn [List.filter].
  destruct (Z.eqb_spec (key_of b) k), (Z.eqb_spec (key_of a) k); try done. lia.
Qed.

(** X14. On a list whose present timestamps are all dates, the sort of
    [fetchSince] yields the items newest first (a missing timestamp
    counting as the epoch), and it is stable: items with the same time
    value keep the order in which the source returned them. *)
Theorem sort_items_newest_first_stable (l : list Item) :
  Forall dated l →
  StronglySorted (newest_first_order date_parse) (sort_items l)
  ∧ ∀ k, List.filter (λ a, key_of a =? k) (sort_items l)
         = List.filter (λ a, key_of a =? k) l.
Proof.
  intros Hl. split; [by apply sort_items_sorted|].
  intros k. unfold sort_items.
  induction Hl as [|a l Ha Hl IH]; [done|].
  change (Js.sort (newest_first date_parse) (a :: l))
    with (Js.insert (newest_first date_parse) a
            (Js.sort (newest_first date_parse) l)).
  rewrite insert_same_key by (by rewrite ?sort_perm).
  cbn [List.filter]. by rewrite IH.
Qed.

End SortedFacts.

(** ** The set of delivered ids *)

Section SeenSetFacts.

Variable date_parse : jsstr → option Z.

Local Abbreviation updateState := (updateState date_parse).

Lemma set_fold_distinct (acc l : list ann_id) :
  NoDup (acc ++ l) → foldl Js.set_add acc l = acc ++ l.
Proof.
  revert acc. induction l as [|x l IH]; intros acc Hnd; simpl;
    [by rewrite app_nil_r|].
  unfold Js.set_add. rewrite bool_decide_eq_false_2.
  - rewrite IH; rewrite <- app_assoc; done.
  - apply NoDup_app in Hnd as (_ & Hd & _). intros Hx.
    apply (Hd x Hx). left.
Qed.

Lemma seen_within_cap st newISO newIds :
  (length (Js.set_of (seen_or_empty st ++ newIds)) ≤ 500)%nat →
  seen_or_empty (updateState st newISO newIds)
  = Js.set_of (seen_or_empty st ++ newIds).
Proof.
  intros Hcap. unfold seen_or_empty at 1. rewrite seen_after_commit. simpl.
  replace (_ - 500)%nat with 0%nat by lia. done.
Qed.

(** X15. [updateState] keeps [seenIds] a set: the ids it records are
    pairwise distinct and are ids recorded before or ids of the batch;
    while the cap of 500 is not exceeded no id is lost, and the ids
    recorded before keep their positions at the front. *)
Theorem updateState_seen_set (st : State) (newISO : option jsstr)
    (newIds : list ann_id) :
  let st' := updateState st newISO newIds in
  NoDup (seen_or_empty st')
  ∧ (∀ x, x ∈ seen_or_empty st' → x ∈ seen_or_empty st ∨ x ∈ newIds)
  ∧ ((length (Js.set_of (seen_or_empty st ++ newIds)) ≤ 500)%nat →
     (∀ x, x ∈ seen_or_empty st ∨ x ∈ newIds → x ∈ seen_or_empty st')
     ∧ (NoDup (seen_or_empty st) →
        seen_or_empty st `prefix_of` seen_or_empty st')).
Proof.
  cbv zeta. split_and!.
  - unfold seen_or_empty at 1. rewrite seen_after_commit. simpl.
    eapply sublist_NoDup; [apply NoDup_set_of|apply sublist_drop].
  - intros x. unfold seen_or_empty at 1. rewrite seen_after_commit. simpl.
    intros Hx. eapply elem_of_sublist in Hx; [|apply sublist_drop].
    by apply elem_of_set_of, elem_of_app in Hx.
  - intros Hcap. rewrite seen_within_cap by done. split.
    + intros x Hx. by apply elem_of_set_of, elem_of_app.
    + intros Hnd. unfold Js.set_of. rewrite foldl_app.
      rewrite (set_fold_distinct [] (seen_or_empty st)) by done.
      apply set_fold_prefix.
Qed.

End SeenSetFacts.

(** ** Cycle after cycle *)

Section RepeatFacts.

Variable date_parse : jsstr → option Z.
Variable toISOString : Z → jsstr.

Local Abbreviation buildDiscordMessage :=
  (buildDiscordMessage date_parse toISOString).
Local Abbreviation send_each := (send_each date_parse toISOString).
Local Abbreviation postToDiscord := (postToDiscord date_parse toISOString).
Local Abbreviation fetch_items := (fetch_items date_parse).
Local Abbreviation poll_fetch := (poll_fetch date_parse toISOString).
Local Abbreviation pollOnce := (pollOnce date_parse toISOString).
Local Abbreviation replayLatest := (replayLatest date_parse toISOString).
Local Abbreviation formatted := (formatted date_parse toISOString).
Local Abbreviation selectNew := (selectNew date_parse).
Local Abbreviation updateState := (updateState date_parse).
Local Abbreviation key_of := (key_of date_parse).
Local Abbreviation dated := (dated date_parse).
Local Abbreviation R := (newest_first_order date_parse).

Lemma poll_fetch_same env env' st :
  same_source env env' → poll_fetch env' st = poll_fetch env st.
Proof.
  intros [Hg Hn].
  unfold poll_fetch, fetch_items, fetchSince, bind, lift, ret.
  by rewrite Hg, Hn.
Qed.

Lemma fetch_items_sorted env iso perPage fetched :
  fetch_items env iso perPage = Ok fetched →
  Forall dated fetched → StronglySorted R fetched.
Proof.
  unfold fetch_items, fetchSince, bind, lift, ret. simpl.
  destruct (getAll env _ perPage) as [raw|e]; [|done].
  intros [= <-] Hd. apply sort_items_sorted.
  unfold sort_items in Hd. by rewrite sort_perm in Hd.
Qed.

Lemma filter_nil_iff {A} (f : A → bool) (l : list A) :
  List.filter f l = [] ↔ Forall (λ x, f x = false) l.
Proof.
  induction l as [|x l IH]; simpl; [by split; [constructor|]|].
  destruct (f x) eqn:Hx.
  - split; [done|]. intros [? _]%Forall_cons_1. congruence.
  - rewrite IH. split; [by constructor|by intros [_ ?]%Forall_cons_1].
Qed.

Lemma filter_elem_of {A} (f : A → bool) (l : list A) (x : A) :
  x ∈ l → f x = true → x ∈ List.filter f l.
Proof.
  intros Hx Hf. apply list_elem_of_In, filter_In.
  split; [by apply list_elem_of_In|done].
Qed.

(** The first element of a list sorted newest first has the largest key. *)
Lemma head_newest (h : Item) (l : list Item) (a : Item) :
  StronglySorted R (h :: l) → a ∈ h :: l → key_of a ≤ key_of h.
Proof.
  intros Hs Ha. apply StronglySorted_inv in Hs as [_ Hh].
  apply elem_of_cons in Ha as [->|Ha]; [done|].
  rewrite Forall_forall in Hh. by apply Hh.
Qed.

(** X16. No announcement is delivered twice by successive cycles: after a
    cycle that succeeded and left a watermark, the same fetched list
    selects nothing, provided every present timestamp in it is a date
    after the epoch and the cap of 500 ids was not exceeded. *)
Theorem delivered_batch_not_selected_again (env : Env) (w : World)
    (fetched : list Item) :
  poll_fetch env (state w) = Ok fetched →
  Forall (dated_after_epoch date_parse) fetched →
  (pollOnce env w).1 = Ok () →
  Js.truthy (lastISO (state (pollOnce env w).2)) = true →
  (length (Js.set_of (seen_or_empty (state w)
                      ++ List.map id (selectNew (state w) fetched))) ≤ 500)%nat →
  selectNew (state (pollOnce env w).2) fetched = [].
Proof.
  intros Hf Hwd. rewrite pollOnce_eq, Hf.
  assert (Hd : Forall dated fetched).
  { eapply Forall_impl; [exact Hwd|]. intros a Ha Hp.
    destruct (Ha Hp) as (x & -> & _). by eexists. }
  pose proof (fetch_items_sorted _ _ _ _ Hf Hd) as Hs.
  destruct (selectNew (state w) fetched) as [|b newer] eqn:Hsel; [done|].
  cbv zeta.
  pose proof (postToDiscord_frame date_parse toISOString env (b :: newer) w)
    as [Hst _].
  destruct (postToDiscord env (b :: newer) w) as [[[]|e] w1]; [|done].
  simpl in Hst. rewrite commit_eq, Hst. simpl. intros _ Hw Hcap.
  set (newestTs := Js.or_else (from_option ts None (head fetched))
                     (lastISO (state w))) in *.
  unfold selectNew at 1. apply filter_nil_iff, Forall_forall.
  intros a Ha. unfold is_new.
  change (lastISO (updateState (state w) newestTs (id b :: List.map id newer)))
    with (advance date_parse (state w) newestTs).
  rewrite Hw. cbn [negb orb]. apply orb_false_iff. split.
  - (* the timestamp is not later than the new watermark *)
    destruct (Js.truthy (ts a)) eqn:Hta; [|done]. cbn [andb].
    destruct fetched as [|h tl]; [by apply elem_of_nil in Ha|].
    pose proof (head_newest h tl a Hs Ha) as Hle.
    rewrite Forall_forall in Hwd.
    destruct (Hwd a Ha Hta) as (x & Hx & Hpos).
    assert (Hka : key_of a = x).
    { unfold key_of, sort_key. by rewrite Hta, truthy_new_Date_val, Hx. }
    assert (Hth : Js.truthy (ts h) = true).
    { destruct (Js.truthy (ts h)) eqn:Hth; [done|].
      rewrite (key_of_missing date_parse h Hth) in Hle. lia. }
    destruct (Hwd h (list_elem_of_here _ _) Hth) as (y & Hy & _).
    assert (Hkh : key_of h = y).
    { unfold key_of, sort_key. by rewrite Hth, truthy_new_Date_val, Hy. }
    assert (HnewestTs : newestTs = ts h).
    { unfold newestTs, Js.or_else. simpl. by rewrite Hth. }
    unfold advance in *. rewrite HnewestTs in *. rewrite Hth in *.
    cbn [andb] in *. unfold date_gt at 1.
    rewrite (truthy_new_Date_val date_parse (ts a)), Hx by done.
    destruct (negb (Js.truthy (lastISO (state w)))
              || date_gt date_parse (ts h) (lastISO (state w))) eqn:Hadv.
    + rewrite truthy_new_Date_val, Hy by done.
      apply bool_decide_eq_false. lia.
    + apply orb_false_iff in Hadv as [_ Hgt]. unfold date_gt in Hgt.
      rewrite (truthy_new_Date_val date_parse (ts h)), Hy in Hgt by done.
      destruct (new_Date_val date_parse (lastISO (state w))) as [z|]; [|done].
      apply bool_decide_eq_false in Hgt. apply bool_decide_eq_false. lia.
  - (* the id is recorded *)
    apply negb_false_iff. rewrite set_has_spec. apply bool_decide_eq_true.
    change (id b :: List.map id newer) with (List.map id (b :: newer)) in *.
    rewrite (seen_within_cap date_parse) by done.
    apply elem_of_set_of, elem_of_app.
    destruct (is_new date_parse (lastISO (state w))
                (Js.set_of (seen_or_empty (state w))) a) eqn:Hnew.
    + right. apply list_elem_of_fmap. exists a. split; [done|].
      rewrite <- Hsel. by apply filter_elem_of.
    + left. unfold is_new in Hnew.
      apply orb_false_iff in Hnew as [_ Hhas].
      apply negb_false_iff in Hhas. rewrite set_has_spec in Hhas.
      by apply bool_decide_eq_true in Hhas.
Qed.

Lemma formatted_functional items ps qs :
  formatted items ps → formatted items qs → ps = qs.
Proof.
  intros Hps. revert qs.
  induction Hps as [|a p items ps Hp _ IH]; intros qs Hqs;
    inversion Hqs; subst; [done|].
  f_equal; [congruence|by apply IH].
Qed.

Lemma formatted_prefix items ps k qs :
  formatted items ps → formatted (take k items) qs → qs `prefix_of` ps.
Proof.
  intros Hps Hqs.
  rewrite (formatted_functional _ _ (take k ps) Hqs).
  - apply prefix_take.
  - by apply Forall2_take.
Qed.

(** What a run of the sending loop leaves in the channel: the payloads of
    the first items, of all of them when it succeeds. *)
Lemma send_each_partial env items w :
  ∃ qs, sent (send_each env items w).2 = sent w ++ qs
        ∧ formatted (take (length qs) items) qs
        ∧ (∀ e, (send_each env items w).1 = Throw e →
                (length qs < length items)%nat).
Proof.
  revert w. induction items as [|a items IH]; intros w; simpl.
  - exists []. rewrite app_nil_r. split_and!; [done|constructor|done].
  - unfold bind, lift, send.
    destruct (buildDiscordMessage a) as [p|e0] eqn:Hp; simpl.
    + destruct (accepts env (sent w) p); simpl.
      * destruct (IH {| state := state w; disk := disk w;
                        sent := sent w ++ [p] |}) as (qs & Hs & Hf & Hlt).
        exists (p :: qs). simpl in Hs. rewrite Hs, <- app_assoc.
        split_and!; [done|by constructor|].
        intros e He. specialize (Hlt e He). simpl. lia.
      * exists []. rewrite app_nil_r.
        split_and!; [done|constructor|simpl; lia].
    + exists []. rewrite app_nil_r.
      split_and!; [done|constructor|simpl; lia].
Qed.

Lemma postToDiscord_partial env items w :
  ∃ qs, sent (postToDiscord env items w).2 = sent w ++ qs
        ∧ formatted (take (length qs) (reverse items)) qs
        ∧ (∀ e, (postToDiscord env items w).1 = Throw e →
                (length qs < length items)%nat).
Proof.
  unfold postToDiscord. destruct items as [|a items].
  - exists []. rewrite app_nil_r. split_and!; [done|constructor|done].
  - unfold bind, fetch_channel, throw, ret.
    destruct (channel_resolves env).
    + destruct (send_each_partial env (reverse (a :: items)) w)
        as (qs & Hs & Hf & Hlt).
      exists qs. split_and!; [done|done|].
      intros e He. specialize (Hlt e He). by rewrite length_reverse in Hlt.
    + exists []. rewrite app_nil_r.
      split_and!; [done|constructor|simpl; lia].
Qed.

Lemma world_eta (w : World) st dk sn :
  state w = st → disk w = dk → sent w = sn →
  w = {| state := st; disk := dk; sent := sn |}.
Proof. destruct w. simpl. by intros -> -> ->. Qed.

(** X17. Delivery is at least once: a cycle that fails has sent a proper
    initial part of the batch, oldest first, and recorded nothing; a later
    cycle that fetches the same list (its present timestamps being dates)
    and meets a channel accepting every payload sends the whole batch
    again, the part already sent included, and commits it. *)
Theorem failed_cycle_is_retried (env env' : Env) (w : World) (e : error)
    (fetched : list Item) (ps : list jsstr) :
  poll_fetch env (state w) = Ok fetched →
  Forall dated fetched →
  (pollOnce env w).1 = Throw e →
  poll_fetch env' (state (pollOnce env w).2) = Ok fetched →
  channel_resolves env' = true →
  (∀ log p, accepts env' log p = true) →
  formatted (reverse (selectNew (state w) fetched)) ps →
  let w1 := (pollOnce env w).2 in
  let out := pollOnce env' w1 in
  (∃ partial, sent w1 = sent w ++ partial
              ∧ partial `prefix_of` ps
              ∧ (length partial < length ps)%nat)
  ∧ state w1 = state w
  ∧ out.1 = Ok ()
  ∧ sent out.2 = sent w1 ++ ps
  ∧ state out.2
    = updateState (state w)
        (Js.or_else (from_option ts None (head fetched)) (lastISO (state w)))
        (List.map id (selectNew (state w) fetched)).
Proof.
  intros Hf _ Hthrow Hf' Hch Hacc Hps. cbv zeta.
  assert (Hfirst : ∃ partial,
            (pollOnce env w).2
            = {| state := state w; disk := disk w;
                 sent := sent w ++ partial |}
            ∧ partial `prefix_of` ps
            ∧ (length partial < length ps)%nat
            ∧ selectNew (state w) fetched ≠ []).
  { revert Hthrow. rewrite pollOnce_eq, Hf.
    destruct (selectNew (state w) fetched) as [|b newer] eqn:Hsel; [done|].
    cbv zeta.
    pose proof (postToDiscord_frame date_parse toISOString env (b :: newer) w)
      as [Hst Hdk].
    destruct (postToDiscord_partial env (b :: newer) w)
      as (qs & Hs & Hq & Hlt).
    destruct (postToDiscord env (b :: newer) w) as [[[]|e1] w1] eqn:Hpost.
    - by rewrite commit_eq.
    - simpl in *. intros _. exists qs. split_and!.
      + by apply world_eta.
      + by eapply formatted_prefix.
      + rewrite <- (Forall2_length _ _ _ Hps), length_reverse. by eapply Hlt.
      + done. }
  revert Hf'. destruct Hfirst as (partial & -> & Hpre & Hlen & Hne).
  cbn [state]. intros Hf'.
  split; [by exists partial|]. split; [done|].
  rewrite pollOnce_eq. cbn [state]. rewrite Hf'.
  destruct (selectNew (state w) fetched) as [|b newer] eqn:Hsel; [done|].
  cbv zeta. rewrite (postToDiscord_ok date_parse toISOString env' _ ps) by done.
  rewrite commit_eq. done.
Qed.

Lemma send_each_same_channel env env' items w w' :
  accepts env' = accepts env → sent w' = sent w →
  (send_each env' items w').1 = (send_each env items w).1
  ∧ sent (send_each env' items w').2 = sent (send_each env items w).2.
Proof.
  intros Hacc. revert w w'.
  induction items as [|a items IH]; intros w w' Hs; simpl; [done|].
  unfold bind, lift, send. rewrite Hacc, Hs.
  destruct (buildDiscordMessage a) as [p|e0]; [|done].
  destruct (accepts env (sent w) p); [|done].
  by apply IH.
Qed.

Lemma postToDiscord_same_channel env env' items w w' :
  channel_resolves env' = channel_resolves env →
  accepts env' = accepts env → sent w' = sent w →
  (postToDiscord env' items w').1 = (postToDiscord env items w).1
  ∧ sent (postToDiscord env' items w').2 = sent (postToDiscord env items w).2.
Proof.
  intros Hch Hacc Hs. unfold postToDiscord.
  destruct items as [|a items]; [done|].
  unfold bind, fetch_channel, throw, ret. rewrite Hch.
  destruct (channel_resolves env); [|done].
  by apply send_each_same_channel.
Qed.

(** X18. The state file is write-only for a running watcher: whether the
    file is configured, whether a write succeeds and what the file holds
    change neither the outcome of a cycle, nor the state in memory it
    leaves, nor what it sends. *)
Theorem state_file_never_affects_cycle (env env' : Env) (w w' : World) :
  same_but_file env env' →
  state w' = state w → sent w' = sent w →
  (pollOnce env' w').1 = (pollOnce env w).1
  ∧ state (pollOnce env' w').2 = state (pollOnce env w).2
  ∧ sent (pollOnce env' w').2 = sent (pollOnce env w).2.
Proof.
  intros (Hsame & Hch & Hacc) Hst Hs. rewrite !pollOnce_eq.
  rewrite Hst, (poll_fetch_same env env') by done.
  destruct (poll_fetch env (state w)) as [fetched|e]; [|done].
  destruct (selectNew (state w) fetched) as [|b newer]; [done|].
  cbv zeta.
  pose proof (postToDiscord_same_channel env env' (b :: newer) w w'
                Hch Hacc Hs) as [Hr Hsent].
  pose proof (postToDiscord_frame date_parse toISOString env (b :: newer) w)
    as [Hst1 _].
  pose proof (postToDiscord_frame date_parse toISOString env' (b :: newer) w')
    as [Hst1' _].
  destruct (postToDiscord env (b :: newer) w) as [[[]|e1] w1],
           (postToDiscord env' (b :: newer) w') as [[[]|e1'] w1'];
    simpl in *; try done.
  - rewrite !commit_eq. simpl. by rewrite Hst1, Hst1', Hst.
  - by rewrite Hst1, Hst1', Hst.
Qed.

(** X19. The variant that keeps its state in [state.json] does not guard
    the write: when the write fails after a delivered batch the cycle
    fails with the batch sent and the file unchanged, and a later cycle
    that fetches the same list and meets such a channel sends the whole
    batch a second time. *)
Theorem on_disk_write_failure_resends (env env' : Env) (w : World)
    (fetched : list Item) (ps : list jsstr) :
  poll_fetch env (OnDisk.readState w) = Ok fetched →
  selectNew (OnDisk.readState w) fetched ≠ [] →
  channel_resolves env = true →
  (∀ log p, accepts env log p = true) →
  formatted (reverse (selectNew (OnDisk.readState w) fetched)) ps →
  disk_writable env = false →
  poll_fetch env'
    (OnDisk.readState (OnDisk.pollOnce date_parse toISOString env w).2)
  = Ok fetched →
  channel_resolves env' = true →
  (∀ log p, accepts env' log p = true) →
  let out := OnDisk.pollOnce date_parse toISOString env w in
  out = (Throw FileError,
         {| state := state w; disk := disk w; sent := sent w ++ ps |})
  ∧ sent (OnDisk.pollOnce date_parse toISOString env' out.2).2
    = sent w ++ ps ++ ps.
Proof.
  intros Hf Hne Hch Hacc Hps Hwr Hf' Hch' Hacc'. cbv zeta.
  assert (Hout : OnDisk.pollOnce date_parse toISOString env w
                 = (Throw FileError,
                    {| state := state w; disk := disk w;
                       sent := sent w ++ ps |})).
  { rewrite on_disk_pollOnce_eq. cbv zeta. rewrite Hf.
    destruct (selectNew (OnDisk.readState w) fetched) as [|b newer]; [done|].
    rewrite (postToDiscord_ok date_parse toISOString env _ ps) by done.
    unfold OnDisk.updateState, OnDisk.writeState. by rewrite Hwr. }
  rewrite Hout in Hf' |- *. split; [done|]. cbn [snd] in Hf' |- *.
  rewrite on_disk_pollOnce_eq. cbv zeta.
  change (OnDisk.readState {| state := state w; disk := disk w;
                              sent := sent w ++ ps |})
    with (OnDisk.readState w) in Hf' |- *.
  rewrite Hf'.
  destruct (selectNew (OnDisk.readState w) fetched) as [|b newer]; [done|].
  rewrite (postToDiscord_ok date_parse toISOString env' _ ps) by done.
  unfold OnDisk.updateState, OnDisk.writeState.
  destruct (disk_writable env'); simpl; by rewrite <- app_assoc.
Qed.

(** C9 (amended). Replay never touches the state: whatever the outcome,
    [state] and the state file are as before the call.  When the fetch
    returns [M] items whose present timestamps are dates, the list is
    newest first and replay with a count [N] posts an initial part of the
    payloads of its [N] first items, the oldest of them first; when the
    call succeeds it has posted exactly [min N M] payloads, all of them;
    and it succeeds when the channel resolves and accepts every payload and
    those items format. *)
Theorem replay_posts_newest_and_keeps_state (env : Env) (w : World) (n : Z) :
  (state (replayLatest env n w).2 = state w
   ∧ disk (replayLatest env n w).2 = disk w)
  ∧ ∀ fetched,
      0 ≤ n →
      fetch_items env None (Z.max n 50) = Ok fetched →
      Forall dated fetched →
      let batch := reverse (take (Z.to_nat n) fetched) in
      StronglySorted R fetched
      ∧ (∃ qs, sent (replayLatest env n w).2 = sent w ++ qs
               ∧ formatted (take (length qs) batch) qs)
      ∧ ((replayLatest env n w).1 = Ok () →
         ∃ ps, formatted batch ps
               ∧ sent (replayLatest env n w).2 = sent w ++ ps
               ∧ length ps = (Z.to_nat n `min` length fetched)%nat)
      ∧ (∀ ps, channel_resolves env = true →
               (∀ log p, accepts env log p = true) →
               formatted batch ps →
               (replayLatest env n w).1 = Ok ()
               ∧ sent (replayLatest env n w).2 = sent w ++ ps
               ∧ length ps = (Z.to_nat n `min` length fetched)%nat).
Proof.
  unfold replayLatest, bind.
  rewrite fetchSince_eq.
  destruct (fetch_items env None (Z.max n 50)) as [l|e] eqn:Hf.
  - split; [apply postToDiscord_frame|].
    intros fetched Hn [= <-] Hd. cbv zeta.
    rewrite slice_0_nonneg by done.
    assert (Hlen : ∀ ps, formatted (reverse (take (Z.to_nat n) l)) ps →
              length ps = (Z.to_nat n `min` length l)%nat).
    { intros ps Hps. apply Forall2_length in Hps.
      by rewrite <- Hps, length_reverse, length_take. }
    split_and!.
    + by eapply fetch_items_sorted.
    + destruct (postToDiscord_partial env (take (Z.to_nat n) l) w)
        as (qs & Hs & Hq & _). by exists qs.
    + destruct (postToDiscord env (take (Z.to_nat n) l) w)
        as [[[]|e] w1] eqn:Hpost; [|done].
      intros _. apply postToDiscord_sent in Hpost as (ps & Hps & Hsent).
      exists ps. split_and!; [done|done|by apply Hlen].
    + intros ps Hch Hacc Hps.
      erewrite postToDiscord_ok by done. simpl.
      split_and!; [done|done|by apply Hlen].
  - split; [done|]. intros ? _ [=].
Qed.

Lemma send_each_history_blind env items w w' :
  history_blind env →
  ∃ qs, (send_each env items w').1 = (send_each env items w).1
        ∧ sent (send_each env items w).2 = sent w ++ qs
        ∧ sent (send_each env items w').2 = sent w' ++ qs.
Proof.
  intros Hb. revert w w'.
  induction items as [|a items IH]; intros w w'; simpl.
  - exists []. by rewrite !app_nil_r.
  - unfold bind, lift, send.
    destruct (buildDiscordMessage a) as [p|e0]; simpl;
      [|exists []; by rewrite !app_nil_r].
    rewrite (Hb (sent w') (sent w) p).
    destruct (accepts env (sent w) p); simpl;
      [|exists []; by rewrite !app_nil_r].
    destruct (IH {| state := state w; disk := disk w; sent := sent w ++ [p] |}
                 {| state := state w'; disk := disk w';
                    sent := sent w' ++ [p] |}) as (qs & Hr & Hs & Hs').
    exists (p :: qs). simpl in Hs, Hs'.
    rewrite Hr, Hs, Hs', <- !app_assoc. done.
Qed.

Lemma postToDiscord_history_blind env items w w' :
  history_blind env →
  ∃ qs, (postToDiscord env items w').1 = (postToDiscord env items w).1
        ∧ sent (postToDiscord env items w).2 = sent w ++ qs
        ∧ sent (postToDiscord env items w').2 = sent w' ++ qs.
Proof.
  intros Hb. unfold postToDiscord. destruct items as [|a items].
  - exists []. by rewrite !app_nil_r.
  - unfold bind, fetch_channel, throw, ret.
    destruct (channel_resolves env);
      [by apply send_each_history_blind|].
    exists []. by rewrite !app_nil_r.
Qed.

Lemma pollOnce_history_blind env w w' :
  history_blind env → state w' = state w → disk w' = disk w →
  ∃ qs, state (pollOnce env w').2 = state (pollOnce env w).2
        ∧ disk (pollOnce env w').2 = disk (pollOnce env w).2
        ∧ sent (pollOnce env w).2 = sent w ++ qs
        ∧ sent (pollOnce env w').2 = sent w' ++ qs.
Proof.
  intros Hb Hst Hdk. rewrite !pollOnce_eq. rewrite Hst.
  destruct (poll_fetch env (state w)) as [fetched|e];
    [|exists []; by rewrite !app_nil_r].
  destruct (selectNew (state w) fetched) as [|b newer];
    [exists []; by rewrite !app_nil_r|].
  cbv zeta.
  destruct (postToDiscord_history_blind env (b :: newer) w w' Hb)
    as (qs & Hr & Hs & Hs').
  pose proof (postToDiscord_frame date_parse toISOString env (b :: newer) w)
    as [Hst1 Hdk1].
  pose proof (postToDiscord_frame date_parse toISOString env (b :: newer) w')
    as [Hst1' Hdk1'].
  exists qs.
  destruct (postToDiscord env (b :: newer) w) as [[[]|e1] w1],
           (postToDiscord env (b :: newer) w') as [[[]|e1'] w1'];
    simpl in *; try done; [|by rewrite Hst1, Hst1', Hdk1, Hdk1'].
  rewrite !commit_eq. simpl.
  by rewrite Hst1, Hst1', Hst, Hdk1, Hdk1', Hdk.
Qed.

Lemma replayLatest_sent env n w :
  state (replayLatest env n w).2 = state w
  ∧ disk (replayLatest env n w).2 = disk w
  ∧ ∃ qs, sent (replayLatest env n w).2 = sent w ++ qs.
Proof.
  unfold replayLatest, bind. rewrite fetchSince_eq.
  destruct (fetch_items env None (Z.max n 50)) as [l|e];
    [|split_and!; [done|done|exists []; by rewrite app_nil_r]].
  destruct (postToDiscord_frame date_parse toISOString env (Js.slice 0 n l) w)
    as [Hst Hdk].
  destruct (postToDiscord_partial env (Js.slice 0 n l) w) as (qs & Hs & _).
  split_and!; [done|done|by exists qs].
Qed.

(** X20. At boot the process stops when the channel cannot be fetched.
    Otherwise, with a channel whose acceptance does not depend on what was
    sent before, a replay at boot changes nothing for the first poll: the
    poll leaves the same state and the same state file as without the
    replay, and sends the same payloads, after those of the replay. *)
Theorem boot_replay_leaves_first_poll (boot replay poll : Env) (n : Z)
    (w : World) :
  (channel_resolves boot = false →
   Boot.ready date_parse toISOString boot replay poll n w = None)
  ∧ (channel_resolves boot = true → history_blind poll →
     ∃ w_n w_0 replayed polled,
       Boot.ready date_parse toISOString boot replay poll n w = Some w_n
       ∧ Boot.ready date_parse toISOString boot replay poll 0 w = Some w_0
       ∧ state w_n = state w_0 ∧ disk w_n = disk w_0
       ∧ sent w_0 = sent w ++ polled
       ∧ sent w_n = sent w ++ replayed ++ polled).
Proof.
  unfold Boot.ready. split; [by intros ->|]. intros -> Hb.
  change (0 <? 0) with false. cbv zeta.
  destruct (0 <? n).
  - destruct (replayLatest_sent replay n w) as (Hst & Hdk & qs & Hs).
    destruct (pollOnce_history_blind poll w (replayLatest replay n w).2
                Hb Hst Hdk) as (ps & H1 & H2 & H3 & H4).
    eexists _, _, qs, ps. split_and!; [done|done|done|done|done|].
    by rewrite H4, Hs, app_assoc.
  - destruct (pollOnce_history_blind poll w w Hb eq_refl eq_refl)
      as (ps & _ & _ & H3 & _).
    eexists _, _, [], ps. split_and!; done.
Qed.

End RepeatFacts.

(** ** The further properties at concrete inputs *)

Section Instances.

Import Text Paging.

Local Ltac not_in := rewrite list_elem_of_In; vm_compute; intuition discriminate.

(** X1 at a header that names the current page only. *)
Lemma parseNextLink_without_next_witness :
  parseNextLink (Some (entry Served.p1 (Js.lit "current"))) = None.
Proof.
  apply (parseNextLink_without_next (Some (entry Served.p1 (Js.lit "current")))).
  vm_compute. reflexivity.
Defined.

(** X2 at the header of a first page. *)
Lemma parseNextLink_sound_witness :
  parseNextLink (Some (Served.link_to Served.p2 Served.p1)) = Some Served.p2
  ∧ Served.p2 ≠ [] ∧ (GT ∉ Served.p2).
Proof.
  destruct (parseNextLink_sound (Some (Served.link_to Served.p2 Served.p1))
              Served.p2) as (Hne & Hgt & _).
  - vm_compute. reflexivity.
  - split_and!; [vm_compute; reflexivity|exact Hne|exact Hgt].
Defined.

(** X3 at the same header, written as its parts. *)
Lemma parseNextLink_entry_witness :
  parseNextLink (Some (Served.link_to Served.p2 Served.p1)) = Some Served.p2.
Proof.
  apply (parseNextLink_entry [entry Served.p1 (Js.lit "current")] []
           [SPACE] Served.p2).
  - apply Forall_cons_2; [|apply Forall_nil_2].
    split; [not_in|vm_compute; reflexivity].
  - apply Forall_nil_2.
  - apply Forall_cons_2; [reflexivity|apply Forall_nil_2].
  - vm_compute. discriminate.
  - not_in.
  - not_in.
Defined.

(** X4 at a url with a list of ids in its query. *)
Lemma parseNextLink_comma_in_url_witness :
  parseNextLink
    (Some (entry (Js.lit "https://canvas.test/a?ids=1,2") (Js.lit "next")))
  = None.
Proof.
  apply (parseNextLink_comma_in_url (Js.lit "https://canvas.test/a?ids=1")
           (Js.lit "2")); not_in.
Defined.

Lemma two_pages_reaches :
  reaches Served.two_pages (Some Served.p1)
    [take 3 Scenario.five; drop 3 Scenario.five] None.
Proof.
  change Served.p1 with (104%N :: tail Served.p1) at 1.
  apply (reaches_page _ _ _ Served.first_page);
    [vm_compute; reflexivity|reflexivity|reflexivity|].
  replace (parseNextLink (link Served.first_page))
    with (Some (104%N :: tail Served.p2)) by (vm_compute; reflexivity).
  apply (reaches_page _ _ _ Served.last_page);
    [vm_compute; reflexivity|reflexivity|reflexivity|].
  apply reaches_here.
Qed.

(** X5 at two pages: two requests give all five records, one request is
    not enough. *)
Lemma getAll_concatenates_witness :
  getAll Served.two_pages 2 Served.p1 = Some (inr Scenario.five)
  ∧ getAll Served.two_pages 1 Served.p1 = None.
Proof.
  split.
  - apply (getAll_concatenates Served.two_pages Served.p1
             [take 3 Scenario.five; drop 3 Scenario.five] 2);
      [exact two_pages_reaches|simpl; lia].
  - apply (getAll_concatenates Served.two_pages Served.p1
             [take 3 Scenario.five; drop 3 Scenario.five] 1);
      [exact two_pages_reaches|simpl; lia].
Defined.

(** X6 at a source that refuses the second page. *)
Lemma getAll_fails_on_bad_page_witness :
  getAll Served.second_refused 5 Served.p1
  = Some (inl (HttpError 401 (Js.lit "Unauthorized") (Js.lit "bad token"))).
Proof.
  apply (getAll_fails_on_bad_page Served.second_refused Served.p1
           [take 3 Scenario.five] 104%N (tail Served.p2) Served.refused 5).
  - change Served.p1 with (104%N :: tail Served.p1) at 1.
    apply (reaches_page _ _ _ Served.first_page);
      [vm_compute; reflexivity|reflexivity|reflexivity|].
    replace (parseNextLink (link Served.first_page))
      with (Some (104%N :: tail Served.p2)) by (vm_compute; reflexivity).
    apply reaches_here.
  - vm_compute. reflexivity.
  - reflexivity.
  - simpl. lia.
Defined.

(** X7 at a source whose every page links to the first one. *)
Lemma getAll_never_returns_witness :
  getAll Served.endless 1000 Served.p1 = None.
Proof.
  apply (getAll_never_returns Served.endless Served.p1 1000).
  - intros u. eexists. split_and!; [reflexivity|reflexivity|by eexists|].
    vm_compute. by eexists.
  - vm_compute. discriminate.
Defined.

End Instances.

Section CycleInstances.

Local Ltac not_in := rewrite list_elem_of_In; vm_compute; intuition discriminate.

Local Abbreviation fetched_five :=
  (sort_items Iso.parse (List.map normalize Scenario.five)).

(** X8 at a first start without a file, two cycles and a restart. *)
Lemma restart_resumes_state_witness :
  let env := Scenario.env_ok Scenario.five in
  let w := cycles Iso.parse Iso.format [env; env]
             (Boot.initial env None None) in
  Boot.readState env (disk w) (Boot.seed None) = state w
  ∧ seenIds (state w) = Some [5; 4; 2; 1; 3].
Proof.
  intros env w. split; [|vm_compute; reflexivity].
  apply (restart_resumes_state Iso.parse Iso.format env None None [env; env]).
  - reflexivity.
  - repeat apply Forall_cons_2; [..|apply Forall_nil_2]; split; reflexivity.
Defined.

(** X9 at the seed state, a commit, and the root url. *)
Lemma health_answers_witness :
  Boot.health (Boot.seed None) (Js.lit "/") = Some Boot.Alive
  ∧ Boot.health (Boot.seed None) (Js.lit "/status") ≠ None.
Proof.
  destruct (health_answers Iso.parse (Boot.seed None) [] None [1] (Js.lit "/"))
    as (Hnone & _ & Halive).
  split.
  - apply Halive. vm_compute. discriminate.
  - intros H. apply Hnone in H. discriminate H.
Defined.

(** X10 at an environment with every variable set and at one whose token
    is two spaces. *)
Lemma missing_var_spec_witness :
  Boot.missing_var Served.penv_ok = None
  ∧ Forall (λ c, Text.is_space c = true)
      (default [] (Served.penv_blank_token "CANVAS_TOKEN")).
Proof.
  split.
  - apply (missing_var_spec Served.penv_ok).
    intros k Hk. exists (Js.lit "x"), 120%N.
    repeat (apply elem_of_cons in Hk as [->|Hk]);
      [split_and!;
         [reflexivity|apply list_elem_of_In; vm_compute; auto|reflexivity]..|].
    by apply elem_of_nil in Hk.
  - apply (missing_var_spec Served.penv_blank_token).
    vm_compute. reflexivity.
Defined.

(** X12 at a line of plain text between spaces. *)
Lemma htmlToText_plain_witness :
  Text.htmlToText (Js.lit "  Office hours move to 3pm  ")
  = Js.lit "Office hours move to 3pm".
Proof.
  etrans.
  - apply (htmlToText_plain (Js.lit "  Office hours move to 3pm  ")); not_in.
  - vm_compute. reflexivity.
Defined.

(** X13 at a body of 5000 characters: the payload has 2000 code units. *)
Lemma truncated_payload_fills_budget_witness :
  let a := Scenario.plain 9 None (replicate 5000 120%N) in
  ∃ payload,
    buildDiscordMessage Iso.parse Iso.format a = Ok payload
    ∧ Js.len payload = 2000.
Proof.
  intros a.
  destruct (truncated_payload_fills_budget Iso.parse Iso.format a
              (Js.lit "unknown time")) as (payload & Hp & _ & Hlen).
  - vm_compute. reflexivity.
  - vm_compute. reflexivity.
  - vm_compute. reflexivity.
  - exists payload. split; [exact Hp|exact Hlen].
Defined.

(** X14 at three items of which the first two carry the same time. *)
Lemma sort_items_newest_first_stable_witness :
  let a := Scenario.plain 1 (Some (Js.lit "2024-03-01T09:00:00Z")) [] in
  let b := Scenario.plain 2 (Some (Js.lit "2024-03-01T09:00:00Z")) [] in
  let c := Scenario.plain 3 (Some (Js.lit "2024-03-05T09:00:00Z")) [] in
  sort_items Iso.parse [a; b; c] = [c; a; b]
  ∧ StronglySorted (newest_first_order Iso.parse)
      (sort_items Iso.parse [a; b; c])
  ∧ List.filter (λ x, key_of Iso.parse x =? key_of Iso.parse a)
      (sort_items Iso.parse [a; b; c]) = [a; b].
Proof.
  intros a b c.
  destruct (sort_items_newest_first_stable Iso.parse [a; b; c]) as [Hs Hst].
  { repeat apply Forall_cons_2; [..|apply Forall_nil_2];
      intros _; vm_compute; eauto. }
  split_and!; [vm_compute; reflexivity|exact Hs|].
  rewrite Hst. vm_compute. reflexivity.
Defined.

(** X15 at a state that holds two ids and a batch that repeats one. *)
Lemma updateState_seen_set_witness :
  let st := {| lastISO := None; seenIds := Some [1; 2] |} in
  let st' := updateState Iso.parse st None [2; 3] in
  seen_or_empty st' = [1; 2; 3]
  ∧ NoDup (seen_or_empty st')
  ∧ [1; 2] `prefix_of` seen_or_empty st'.
Proof.
  intros st st'.
  destruct (updateState_seen_set Iso.parse st None [2; 3])
    as (Hnd & _ & Hcap).
  destruct Hcap as [_ Hpre]; [vm_compute; lia|].
  split_and!; [vm_compute; reflexivity|exact Hnd|].
  apply Hpre. vm_compute.
  repeat (apply NoDup_cons_2; [not_in|]). apply NoDup_nil_2.
Defined.

(** X16 at a first cycle over five announcements: the state it leaves
    selects none of them again. *)
Lemma delivered_batch_not_selected_again_witness :
  let env := Scenario.env_ok Scenario.five in
  let out := pollOnce Iso.parse Iso.format env Scenario.fresh in
  length (sent out.2) = 5%nat
  ∧ selectNew Iso.parse (state out.2) fetched_five = [].
Proof.
  intros env out. split; [vm_compute; reflexivity|].
  apply (delivered_batch_not_selected_again Iso.parse Iso.format env
           Scenario.fresh fetched_five).
  - vm_compute. reflexivity.
  - set (l := fetched_five). vm_compute in l. subst l.
    repeat apply Forall_cons_2; [..|apply Forall_nil_2];
      intros H; vm_compute in H |- *;
      first [discriminate H|eexists; split; reflexivity].
  - vm_compute. reflexivity.
  - vm_compute. reflexivity.
  - vm_compute. lia.
Defined.

(** X17 at a channel that fails on the second send, followed a minute
    later by a cycle with a channel that accepts everything: six payloads
    for five announcements. *)
Lemma failed_cycle_is_retried_witness :
  let flaky := Scenario.env_of Scenario.five 1 in
  let ok := Served.later (Scenario.env_ok Scenario.five) in
  let w1 := (pollOnce Iso.parse Iso.format flaky Scenario.fresh).2 in
  let out := pollOnce Iso.parse Iso.format ok w1 in
  length (sent w1) = 1%nat
  ∧ out.1 = Ok ()
  ∧ length (sent out.2) = 6%nat
  ∧ seenIds (state out.2) = Some [5; 4; 2; 1; 3].
Proof.
  intros flaky ok w1 out.
  destruct (failed_cycle_is_retried Iso.parse Iso.format flaky ok
              Scenario.fresh DiscordError fetched_five
              (Scenario.payloads (reverse fetched_five)))
    as (_ & _ & Hok & Hsent & Hst).
  - vm_compute. reflexivity.
  - set (l := fetched_five). vm_compute in l. subst l.
    repeat apply Forall_cons_2; [..|apply Forall_nil_2];
      intros H; vm_compute in H |- *; first [discriminate H|eauto].
  - vm_compute. reflexivity.
  - vm_compute. reflexivity.
  - reflexivity.
  - reflexivity.
  - replace (selectNew Iso.parse (state Scenario.fresh) fetched_five)
      with fetched_five by (vm_compute; reflexivity).
    apply formatted_payloads. vm_compute. reflexivity.
  - split_and!; [vm_compute; reflexivity|exact Hok| |].
    + unfold out, w1. rewrite Hsent. vm_compute. reflexivity.
    + unfold out, w1. rewrite Hst. vm_compute. reflexivity.
Defined.

(** X18 at a cycle with a state file that cannot be written and holds
    another state. *)
Lemma state_file_never_affects_cycle_witness :
  let poll := pollOnce Iso.parse Iso.format in
  let env := Scenario.env_ok Scenario.five in
  let env' := Served.read_only env in
  let w' := {| state := state Scenario.fresh;
               disk := Some (state Scenario.caught_up); sent := [] |} in
  (poll env' w').1 = (poll env Scenario.fresh).1
  ∧ state (poll env' w').2 = state (poll env Scenario.fresh).2
  ∧ sent (poll env' w').2 = sent (poll env Scenario.fresh).2.
Proof.
  intros poll env env' w'.
  apply (state_file_never_affects_cycle Iso.parse Iso.format env env'
           Scenario.fresh w'); [repeat split|reflexivity|reflexivity].
Defined.

(** X19 at a file that cannot be written and, a minute later, can: ten
    payloads for five announcements. *)
Lemma on_disk_write_failure_resends_witness :
  let env := Served.read_only (Scenario.env_ok Scenario.five) in
  let env' := Served.later (Scenario.env_ok Scenario.five) in
  let out := OnDisk.pollOnce Iso.parse Iso.format env Scenario.fresh in
  out.1 = Throw FileError
  ∧ disk out.2 = None
  ∧ length (sent out.2) = 5%nat
  ∧ length (sent (OnDisk.pollOnce Iso.parse Iso.format env' out.2).2)
    = 10%nat.
Proof.
  intros env env' out.
  destruct (on_disk_write_failure_resends Iso.parse Iso.format env env'
              Scenario.fresh fetched_five
              (Scenario.payloads (reverse fetched_five)))
    as [Hout Hsent].
  - vm_compute. reflexivity.
  - vm_compute. discriminate.
  - reflexivity.
  - reflexivity.
  - replace (selectNew Iso.parse (OnDisk.readState Scenario.fresh)
               fetched_five)
      with fetched_five by (vm_compute; reflexivity).
    apply formatted_payloads. vm_compute. reflexivity.
  - reflexivity.
  - vm_compute. reflexivity.
  - reflexivity.
  - reflexivity.
  - split_and!.
    + unfold out. by rewrite Hout.
    + unfold out. by rewrite Hout.
    + unfold out. rewrite Hout. vm_compute. reflexivity.
    + unfold out. rewrite Hsent. vm_compute. reflexivity.
Defined.

(** X20 at a boot with a replay of two: the first poll commits the same
    five ids, after seven payloads instead of five. *)
Lemma boot_replay_leaves_first_poll_witness :
  let env := Scenario.env_ok Scenario.five in
  ∃ w_n w_0,
    Boot.ready Iso.parse Iso.format env env env 2 Scenario.fresh = Some w_n
    ∧ Boot.ready Iso.parse Iso.format env env env 0 Scenario.fresh = Some w_0
    ∧ state w_n = state w_0
    ∧ length (sent w_n) = 7%nat
    ∧ length (sent w_0) = 5%nat.
Proof.
  intros env.
  destruct (boot_replay_leaves_first_poll Iso.parse Iso.format env env env 2
              Scenario.fresh) as [_ H].
  destruct H as (w_n & w_0 & replayed & polled & Hn & H0 & Hst & _);
    [reflexivity|intros ???; reflexivity|].
  exists w_n, w_0. split_and!; [exact Hn|exact H0|exact Hst| |].
  - vm_compute in Hn. injection Hn as <-. reflexivity.
  - vm_compute in H0. injection H0 as <-. reflexivity.
Defined.

(** C9 at the scenario of the specification: replay with count 2 against
    five fetched items posts the two newest, the older of them first, and
    leaves the state alone. *)
Lemma replay_posts_newest_and_keeps_state_witness :
  let env := Scenario.env_ok Scenario.five in
  let out := replayLatest Iso.parse Iso.format env 2 Scenario.caught_up in
  List.map id fetched_five = [5; 4; 2; 1; 3]
  ∧ out.1 = Ok ()
  ∧ sent out.2 = Scenario.payloads (reverse (take 2 fetched_five))
  ∧ length (Scenario.payloads (reverse (take 2 fetched_five))) = 2%nat
  ∧ state out.2 = state Scenario.caught_up
  ∧ disk out.2 = disk Scenario.caught_up.
Proof.
  intros env out.
  destruct (replay_posts_newest_and_keeps_state Iso.parse Iso.format env
              Scenario.caught_up 2) as [[Hst Hdk] Hpost].
  destruct (Hpost fetched_five) as (_ & _ & _ & Hall).
  - lia.
  - vm_compute. reflexivity.
  - set (l := fetched_five). vm_compute in l. subst l.
    repeat apply Forall_cons_2; [..|apply Forall_nil_2];
      intros H; vm_compute in H |- *; first [discriminate H|eauto].
  - destruct (Hall (Scenario.payloads (reverse (take 2 fetched_five))))
      as (Hok & Hsent & Hlen).
    + reflexivity.
    + reflexivity.
    + apply formatted_payloads. vm_compute. reflexivity.
    + split_and!;
        [vm_compute; reflexivity|exact Hok|exact Hsent| |exact Hst|exact Hdk].
      rewrite Hlen. vm_compute. reflexivity.
Defined.

(** C9, refuted as stated: against the same five items, a channel that
    refuses the second payload makes replay with count 2 post one item. *)
Lemma replay_can_post_fewer :
  let env := Scenario.env_of Scenario.five 1 in
  let out := replayLatest Iso.parse Iso.format env 2 Scenario.caught_up in
  fetch_items Iso.parse env None (Z.max 2 50) = Ok fetched_five
  ∧ length fetched_five = 5%nat
  ∧ out.1 = Throw DiscordError
  ∧ sent Scenario.caught_up = []
  ∧ length (sent out.2) = 1%nat
  ∧ (length (sent out.2) < 2 `min` length fetched_five)%nat.
Proof.
  intros env out.
  split_and!; first [vm_compute; reflexivity|vm_compute; lia].
Qed.

End CycleInstances.
